(** * publickey: a textbook public-key block cipher

    Shallow embedding of [maths.py], [crypt.py] and [dcrypt.py], followed by
    the properties of the block codec, the modular inverse, the primality
    tests, key generation and the cipher.

    Python integers are unbounded, so they are modelled by [Z]; Python's
    [//] and [%] round towards minus infinity, as [Z.div] and [Z.modulo] do.
    A [str] is the list of its code points, a [bytes] object the list of its
    byte values. *)

From Stdlib Require Import ZArith List Bool Lia Zpow_facts.
From Stdlib Require Import Zmod.ZmodInv.
Import ListNotations.
Local Open Scope Z_scope.

(** ** The Python run-time the program relies on *)

Module Py.

(** Exceptions the modelled code can raise. [KeyBitsError] is the plain
    [Exception("Key bits must be larger than block bits.")] of dcrypt.py. *)
Inductive exn : Type :=
| ValueError
| OverflowError
| ZeroDivisionError
| UnicodeEncodeError
| KeyBitsError.

(** Why a run of the model stops without a Python outcome: a [while] loop
    used up its fuel, the tape of random draws is used up, or the next
    value on the tape is not one [random.randrange] can return. *)
Inductive halt : Type :=
| OutOfFuel
| OutOfTape
| DrawOutOfRange.

Inductive result (A : Type) : Type :=
| Ok (a : A)
| Raise (e : exn)
| NoResult (h : halt).

Arguments Ok {A} a.
Arguments Raise {A} e.
Arguments NoResult {A} h.

Definition bind {A B} (c : result A) (k : A -> result B) : result B :=
  match c with
  | Ok a => k a
  | Raise e => Raise e
  | NoResult h => NoResult h
  end.

(** Random draws: the tape lists, in order, the values returned by the
    calls of [random.randrange]. *)
Definition tape := list Z.

Definition M (A : Type) : Type := tape -> result (A * tape).

Definition ret {A} (a : A) : M A := fun t => Ok (a, t).

Definition mbind {A B} (c : M A) (k : A -> M B) : M B :=
  fun t =>
    match c t with
    | Ok (a, t') => k a t'
    | Raise e => Raise e
    | NoResult h => NoResult h
    end.

Definition lift {A} (c : result A) : M A :=
  fun t =>
    match c with
    | Ok a => Ok (a, t)
    | Raise e => Raise e
    | NoResult h => NoResult h
    end.

(** [random.randrange(start, stop)]: an empty range is a [ValueError],
    otherwise the next draw, which lies in [start, stop). *)
Definition randrange (start stop : Z) : M Z :=
  fun t =>
    if stop <=? start then Raise ValueError
    else match t with
         | [] => NoResult OutOfTape
         | r :: t' =>
             if (start <=? r) && (r <? stop) then Ok (r, t')
             else NoResult DrawOutOfRange
         end.

(** [len(range(start, stop, step))] for [step <> 0]. *)
Definition range_len (start stop step : Z) : Z :=
  if 0 <? step then
    if start <? stop then (stop - start - 1) / step + 1 else 0
  else
    if stop <? start then (start - stop - 1) / (- step) + 1 else 0.

(** The [count] values a range yields from [start] on. *)
Fixpoint iota (count : nat) (start step : Z) : list Z :=
  match count with
  | O => []
  | S count' => start :: iota count' (start + step) step
  end.

(** [range(start, stop, step)] as the list it iterates over. *)
Definition range3 (start stop step : Z) : result (list Z) :=
  if step =? 0 then Raise ValueError
  else Ok (iota (Z.to_nat (range_len start stop step)) start step).

(** [range(start, stop)] and [range(stop)]: the step is 1. *)
Definition range2 (start stop : Z) : list Z :=
  iota (Z.to_nat (stop - start)) start 1.

(** [pow(base, e, n)], computed by square and multiply; a zero modulus is
    a [ValueError]. A negative exponent is a [ValueError] up to Python 3.7
    (Python 3.8 returns a modular inverse instead): the statements below
    use [pow3] with [e >= 0] only. *)
Definition pow3 (base e n : Z) : result Z :=
  if n =? 0 then Raise ValueError
  else if e <? 0 then Raise ValueError
  else Ok (Zpow_mod base e n).

(** [chr(c)] as a code point. *)
Definition chr (c : Z) : result Z :=
  if (0 <=? c) && (c <? 1114112) then Ok c
  else if (- 2147483648 <=? c) && (c <? 2147483648) then Raise ValueError
  else Raise OverflowError.

(** [s.rstrip("\0")] *)
Definition rstrip_nul (s : list Z) : list Z :=
  fold_right
    (fun c acc =>
       match acc with
       | [] => if c =? 0 then [] else [c]
       | _ :: _ => c :: acc
       end) [] s.

(** [s.encode("ascii")] *)
Definition encode_ascii (s : list Z) : result (list Z) :=
  if forallb (fun c => (0 <=? c) && (c <? 128)) s then Ok s
  else Raise UnicodeEncodeError.

(** [len(s)] *)
Definition len {A} (s : list A) : Z := Z.of_nat (length s).

(** [s[i]] for an index that the callers keep inside [0, len(s)). *)
Definition getitem (s : list Z) (i : Z) : Z := nth (Z.to_nat i) s 0.

(** A list comprehension or loop body that can raise, run left to right. *)
Fixpoint mapM {A B} (f : A -> result B) (l : list A) : result (list B) :=
  match l with
  | [] => Ok []
  | a :: l' =>
      bind (f a) (fun b => bind (mapM f l') (fun bs => Ok (b :: bs)))
  end.

(** [fractions.gcd] (Python 3.5 to 3.8): the sign follows [b], or [a]
    when [b] is zero. *)
Definition fractions_gcd (a b : Z) : Z :=
  if (if b =? 0 then a else b) <? 0 then - Z.gcd a b else Z.gcd a b.

(** [int(math.sqrt(n))] as the integer square root. Python computes it in
    floating point: the two agree for [n < 2 ^ 52], which covers the sieve
    sizes and the numbers tested below; beyond, Python rounds, and raises
    [OverflowError] from [2 ^ 1024] on. *)
Definition isqrt (n : Z) : Z := Z.sqrt n.

End Py.

Import Py.

Notation "x <- c ;; k" := (bind c (fun x => k))
  (at level 61, c at next level, right associativity).
Notation "x <~ c ;; k" := (mbind c (fun x => k))
  (at level 61, c at next level, right associativity).

(** ** maths.py *)

Module Maths.

(** [simple_is_prime]: trial division up to the square root (see [isqrt]
    for the range of [n] on which this is the Python function). *)
Definition simple_is_prime (n : Z) : bool :=
  if n <? 2 then false
  else forallb (fun i => negb (n mod i =? 0)) (range2 2 (isqrt n + 1)).

(** The inner [while pointer < size] loop of [prime_sieve]. *)
Fixpoint strike (fuel : nat) (size step pointer : Z) (sieve : list bool)
  : list bool :=
  match fuel with
  | O => sieve
  | S fuel' =>
      if pointer <? size then
        strike fuel' size step (pointer + step)
               (firstn (Z.to_nat pointer) sieve ++ false ::
                skipn (S (Z.to_nat pointer)) sieve)
      else sieve
  end.

(** [prime_sieve(size)] for [size >= 2]; the loop over [pointer] runs at
    most [size] times, which is the fuel it gets. *)
Definition prime_sieve (size : Z) : list Z :=
  let sieve0 := false :: false :: repeat true (Z.to_nat size - 2) in
  let sieve :=
    fold_left (fun sieve i => strike (Z.to_nat size) size i (i * 2) sieve)
              (range2 2 (isqrt size + 1)) sieve0 in
  filter (fun i => nth (Z.to_nat i) sieve false) (range2 0 size).

Definition FIRST_FEW_PRIMES : list Z := Eval vm_compute in prime_sieve 1000.

(** The first loop of [rabin_miller]: [n - 1 = d * 2 ^ r]. *)
Fixpoint split_even (fuel : nat) (d r : Z) : result (Z * Z) :=
  match fuel with
  | O => NoResult OutOfFuel
  | S fuel' =>
      if d mod 2 =? 0 then split_even fuel' (d / 2) (r + 1)
      else Ok (d, r)
  end.

(** The [while x != (n-1)] loop of one round: [true] when the loop is
    left with [x = n - 1], [false] when the function returns [False]. *)
Fixpoint witness_loop (fuel : nat) (n r x i : Z) : result bool :=
  match fuel with
  | O => NoResult OutOfFuel
  | S fuel' =>
      if x =? n - 1 then Ok true
      else if i =? r - 1 then Ok false
      else witness_loop fuel' n r ((x ^ 2) mod n) (i + 1)
  end.

(** The witness loop, [for attempts in range(k)]. *)
Fixpoint attempts (fuel : nat) (n d r : Z) (k : nat) : M bool :=
  match k with
  | O => ret true
  | S k' =>
      a <~ randrange 2 (n - 1) ;;
      x <~ lift (pow3 a d n) ;;
      if negb (x =? 1) then
        passed <~ lift (witness_loop fuel n r x 0) ;;
        if passed : bool then attempts fuel n d r k' else ret false
      else attempts fuel n d r k'
  end.

Definition rabin_miller (fuel : nat) (n k : Z) : M bool :=
  dr <~ lift (split_even fuel (n - 1) 0) ;;
  attempts fuel n (fst dr) (snd dr) (Z.to_nat k).

Definition is_prime (fuel : nat) (n : Z) : M bool :=
  if n <? 2 then ret false
  else if existsb (Z.eqb n) FIRST_FEW_PRIMES then ret true
  else if existsb (fun prime => n mod prime =? 0) FIRST_FEW_PRIMES
       then ret false
  else rabin_miller fuel n 5.

(** [find_random_prime]: each turn of [while True] takes one unit of
    [loops]; [fuel] is what the loops inside [is_prime] get. *)
Fixpoint find_random_prime (loops fuel : nat) (start stop : Z) : M Z :=
  match loops with
  | O => fun _ => NoResult OutOfFuel
  | S loops' =>
      n <~ randrange start stop ;;
      b <~ is_prime fuel n ;;
      if b : bool then ret n else find_random_prime loops' fuel start stop
  end.

Fixpoint find_random_coprime (loops : nat) (n start stop : Z) : M Z :=
  match loops with
  | O => fun _ => NoResult OutOfFuel
  | S loops' =>
      e <~ randrange start stop ;;
      if fractions_gcd e n =? 1 then ret e
      else find_random_coprime loops' n start stop
  end.

(** The [while b] loop of [multinv]; it returns the final [lastx]. *)
Fixpoint euclid (fuel : nat) (a b x lastx : Z) : result Z :=
  match fuel with
  | O => NoResult OutOfFuel
  | S fuel' =>
      if b =? 0 then Ok lastx
      else
        let q := a / b in
        euclid fuel' b (a mod b) (lastx - q * x) x
  end.

Definition multinv (fuel : nat) (mod_ val : Z) : result Z :=
  lastx <- euclid fuel mod_ val 0 1 ;;
  if val =? 0 then Raise ZeroDivisionError
  else
    let result := (1 - lastx * mod_) / val in
    Ok (if result <? 0 then result + mod_ else result).

End Maths.

Import Maths.

(** ** crypt.py *)

Module Crypt.

Definition DEFAULT_EXP : Z := 65537.
Definition BLOCK_SIZE : Z := 128.

(** A loop whose body can raise, threading the loop state. *)
Fixpoint foldM {A B} (f : A -> B -> result A) (l : list B) (a : A)
  : result A :=
  match l with
  | [] => Ok a
  | b :: l' => a' <- f a b ;; foldM f l' a'
  end.

(** The inner loop of [text2int]: the value of the block that starts at
    byte [block]. *)
Definition block_val (msg : list Z) (block_size block : Z) : Z :=
  fold_left
    (fun block_val i =>
       block_val + getitem msg i * 256 ^ (i mod block_size))
    (range2 block (Z.min (block + block_size) (len msg))) 0.

Definition text2int (msg : list Z) (block_size : Z) : result (list Z) :=
  msg' <- encode_ascii (rstrip_nul msg) ;;
  blocks <- range3 0 (len msg') block_size ;;
  Ok (fold_left (fun ints block => ints ++ [block_val msg' block_size block])
                blocks []).

(** One turn of the inner loop of [int2text]; the state is
    [(block_int, block_msg)]. *)
Definition digit_step (st : Z * list Z) (i : Z) : result (Z * list Z) :=
  let char := fst st / 256 ^ i in
  let block_int := fst st mod 256 ^ i in
  c <- chr char ;;
  Ok (block_int, snd st ++ [c]).

(** The characters of one block, [block_msg[::-1]]. *)
Definition block_text (block_size block_int : Z) : result (list Z) :=
  idxs <- range3 (block_size - 1) (-1) (-1) ;;
  st <- foldM digit_step idxs (block_int, []) ;;
  Ok (rev (snd st)).

Definition int2text (ints : list Z) (block_size : Z) : result (list Z) :=
  msg <- foldM (fun msg block_int =>
                  block_msg <- block_text block_size block_int ;;
                  Ok (msg ++ block_msg))
               ints [] ;;
  Ok (rstrip_nul msg).

(** Keys of crypt.py are pairs [(n, e)] and [(n, d)]. *)
Definition key : Type := Z * Z.

Definition encrypt (msg : list Z) (k : key) (block_size : Z)
  : result (list Z) :=
  let '(n, e) := k in
  blocks <- text2int msg block_size ;;
  mapM (fun block => pow3 block e n) blocks.

Definition decrypt (encrypted_blocks : list Z) (k : key) (block_size : Z)
  : result (list Z) :=
  let '(n, d) := k in
  decrypted_blocks <- mapM (fun block => pow3 block d n) encrypted_blocks ;;
  int2text decrypted_blocks block_size.

(** [2 ** (size - 1)] is a float for [size <= 0], which [randrange]
    refuses with a [ValueError]. *)
Definition get_key_prime (fuel : nat) (size : Z) : M Z :=
  if size <? 1 then fun _ => Raise ValueError
  else find_random_prime fuel fuel (2 ^ (size - 1)) (2 ^ size).

Definition get_key_coprime (fuel : nat) (n size : Z) : M Z :=
  if size <? 0 then fun _ => Raise ValueError
  else find_random_coprime fuel n DEFAULT_EXP (2 ^ size).

(** The [while p == q] loop. *)
Fixpoint draw_pq (loops fuel : nat) (key_size p q : Z) : M (Z * Z) :=
  match loops with
  | O => fun _ => NoResult OutOfFuel
  | S loops' =>
      if p =? q then
        p' <~ get_key_prime fuel key_size ;;
        q' <~ get_key_prime fuel key_size ;;
        draw_pq loops' fuel key_size p' q'
      else ret (p, q)
  end.

(** What [generate_key_pair] computes from the primes it drew: the
    modulus and the two exponents. *)
Definition derive_keys (fuel : nat) (key_size : Z)
           (use_default_exponent : bool) (p q : Z) : M (key * key) :=
  let n := p * q in
  let x := (p - 1) * (q - 1) in
  e <~ (if use_default_exponent then ret DEFAULT_EXP
        else get_key_coprime fuel x key_size) ;;
  d <~ lift (multinv fuel x e) ;;
  let public_key := (n, e) in
  let private_key := (n, d) in
  ret (public_key, private_key).

Definition generate_key_pair (fuel : nat) (key_size : Z)
           (use_default_exponent : bool) : M (key * key) :=
  pq <~ draw_pq fuel fuel key_size 0 0 ;;
  derive_keys fuel key_size use_default_exponent (fst pq) (snd pq).

End Crypt.

(** ** dcrypt.py

    The codec and key generation are the ones of crypt.py; keys carry the
    declared bit size as a third component and [encrypt] checks it. *)

Module Dcrypt.

Definition DEFAULT_EXP : Z := 65537.
Definition DEFAULT_BLOCK_SIZE : Z := 128.

Definition text2int := Crypt.text2int.
Definition int2text := Crypt.int2text.

Definition key : Type := Z * Z * Z.

Definition encrypt (msg : list Z) (k : key) (block_size : Z)
  : result (list Z) :=
  let '(n, e, size) := k in
  if size <=? block_size * 8 then Raise KeyBitsError
  else
    blocks <- text2int msg block_size ;;
    mapM (fun block => pow3 block e n) blocks.

Definition decrypt (encrypted_blocks : list Z) (k : key) (block_size : Z)
  : result (list Z) :=
  let '(n, d, _) := k in
  decrypted_blocks <- mapM (fun block => pow3 block d n) encrypted_blocks ;;
  int2text decrypted_blocks block_size.

Definition generate_key_pair (fuel : nat) (key_size : Z)
           (use_default_exponent : bool) : M (key * key) :=
  kp <~ Crypt.generate_key_pair fuel key_size use_default_exponent ;;
  let '((n, e), (_, d)) := kp in
  ret ((n, e, key_size), (n, d, key_size)).

End Dcrypt.

Import Crypt.

(** ** Vocabulary of the statements *)

(** The value of a window of bytes, least significant byte first:
    [C0 * 256^0 + C1 * 256^1 + ...]. *)
Fixpoint le_value (l : list Z) : Z :=
  match l with
  | [] => 0
  | c :: l' => c + 256 * le_value l'
  end.

Definition is_byte (c : Z) : Prop := 0 <= c < 256.
Definition is_ascii (c : Z) : Prop := 0 <= c < 128.

(** The bytes of the window of [block_size] bytes that starts at byte
    [start] of [msg]. *)
Definition window (block_size : Z) (msg : list Z) (start : Z) : list Z :=
  firstn (Z.to_nat block_size) (skipn (Z.to_nat start) msg).

(** The bit size of a modulus, [n.bit_length()]. *)
Definition bit_size (n : Z) : Z := Z.log2 n + 1.

(** * Properties *)

(** ** The values the sources announce in their comments and [main] *)

Example text2int_a : text2int [97] BLOCK_SIZE = Ok [97].
Proof. reflexivity. Qed.

Example text2int_aaa : text2int [97; 97; 97] BLOCK_SIZE = Ok [6381921].
Proof. reflexivity. Qed.

Example sample_keys_round_trip :
  let msg := map Z.of_nat (seq 97 26) in
  (c <- encrypt msg (5551201688147, 65537) 5 ;;
   decrypt c (5551201688147, 109182490673) 5) = Ok msg.
Proof. vm_compute. reflexivity. Qed.

(** ** The modular inverse, [multinv] *)

Section Euclid.

Lemma euclid_terminates : forall fuel a b x lastx,
    Z.abs b < Z.of_nat fuel ->
    exists l, euclid fuel a b x lastx = Ok l.
Proof.
  induction fuel as [|fuel IH]; intros a b x lastx Hb.
  - lia.
  - simpl. destruct (Z.eqb_spec b 0) as [->|Hnz].
    + now exists lastx.
    + apply IH.
      assert (Z.abs (a mod b) < Z.abs b) by
          (destruct (Z_lt_le_dec b 0);
           [pose proof (Z.mod_neg_bound a b) | pose proof (Z.mod_pos_bound a b)];
           lia).
      lia.
Qed.

Variables mod_ val : Z.
Hypothesis val_pos : 0 < val.

(** The coefficients [x] and [lastx] of the modulus alternate in sign and
    satisfy [a * |x| + b * |lastx| = val]; this bounds the final [lastx]
    by [val / 2]. *)
Lemma euclid_bezout : forall fuel a b x lastx s,
    s = 1 \/ s = -1 ->
    0 <= s * lastx -> 0 <= - (s * x) ->
    0 < b < a ->
    a * - (s * x) + b * (s * lastx) = val ->
    (val | a - lastx * mod_) -> (val | b - x * mod_) ->
    Z.gcd a b = 1 ->
    Z.abs b < Z.of_nat fuel ->
    exists l, euclid fuel a b x lastx = Ok l /\
              2 * Z.abs l <= val /\ (val | 1 - l * mod_).
Proof.
  induction fuel as [|fuel IH];
    intros a b x lastx s Hs Hl Hx Hba Hsum Da Db Hg Hfuel; [lia|].
  cbn [euclid]. destruct (Z.eqb_spec b 0) as [?|_]; [lia|].
  pose proof (Z.div_mod a b ltac:(lia)) as Hdm.
  pose proof (Z.mod_pos_bound a b ltac:(lia)) as Hr.
  assert (Hq : 1 <= a / b) by (apply Z.div_le_lower_bound; lia).
  assert (Hg' : Z.gcd b (a mod b) = 1)
    by (rewrite Z.gcd_comm, Z.gcd_mod, Z.gcd_comm by lia; exact Hg).
  destruct (Z.eq_dec (a mod b) 0) as [Hr0|Hr0].
  - (* last turn of the loop: [b] divides [a], so [b = 1] *)
    rewrite Hr0 in *. rewrite Z.gcd_0_r in Hg'.
    assert (b = 1) by lia. subst b.
    destruct fuel as [|fuel]; [lia|]. cbn [euclid]. rewrite Z.eqb_refl.
    exists x. split; [reflexivity|]. split; [|exact Db].
    assert (2 * - (s * x) <= a * - (s * x)) by (apply Z.mul_le_mono_nonneg_r; lia).
    destruct Hs; subst s; lia.
  - apply (IH _ _ _ _ (- s)).
    + lia.
    + lia.
    + destruct Hs; subst s; nia.
    + lia.
    + replace (b * - (- s * (lastx - a / b * x)) + a mod b * (- s * x))
        with ((b * (a / b) + a mod b) * - (s * x) + b * (s * lastx)) by ring.
      now rewrite <- Hdm.
    + exact Db.
    + replace (a mod b - (lastx - a / b * x) * mod_)
        with ((a - lastx * mod_) - (a / b) * (b - x * mod_)) by lia.
      apply Z.divide_sub_r; [exact Da|]. now apply Z.divide_mul_r.
    + exact Hg'.
    + lia.
Qed.

Hypothesis mod_big : 1 < mod_.
Hypothesis coprime : Z.gcd mod_ val = 1.

Lemma multinv_pos_spec : forall fuel,
    Z.abs val < Z.of_nat fuel ->
    exists x, multinv fuel mod_ val = Ok x /\
              0 <= x < mod_ /\ (val * x) mod mod_ = 1.
Proof.
  intros fuel Hfuel. unfold multinv.
  destruct fuel as [|fuel]; [lia|]. cbn [euclid].
  destruct (Z.eqb_spec val 0) as [?|_]; [lia|].
  rewrite Z.mul_0_r, Z.sub_0_r.
  pose proof (Z.div_mod mod_ val ltac:(lia)) as Hdm.
  pose proof (Z.mod_pos_bound mod_ val val_pos) as Hr.
  assert (Hg' : Z.gcd val (mod_ mod val) = 1)
    by (rewrite Z.gcd_comm, Z.gcd_mod, Z.gcd_comm by lia; exact coprime).
  destruct (Z.eq_dec (mod_ mod val) 0) as [Hr0|Hr0].
  - rewrite Hr0 in *. rewrite Z.gcd_0_r in Hg'.
    assert (val = 1) by lia. subst val.
    destruct fuel as [|fuel]; [lia|]. cbn [euclid]. rewrite Z.eqb_refl.
    exists 1. split; [reflexivity|]. split; [lia|].
    rewrite Z.mod_small; lia.
  - destruct (euclid_bezout fuel val (mod_ mod val) 1 0 (-1))
      as (l & -> & Hl & [y Hy]); try lia.
    + exists 1; lia.
    + exists (- (mod_ / val)). lia.
    + cbn [bind]. destruct (Z.eqb_spec val 0) as [?|_]; [lia|].
      rewrite Hy, Z.div_mul by lia.
      assert (Hylo : - mod_ < y) by nia.
      assert (Hyhi : y < mod_) by nia.
      eexists; split; [reflexivity|].
      destruct (Z.ltb_spec y 0).
      * split; [lia|].
        replace (val * (y + mod_)) with (1 + (val - l) * mod_) by lia.
        rewrite Z.mod_add, Z.mod_small; lia.
      * split; [lia|].
        replace (val * y) with (1 + (- l) * mod_) by lia.
        rewrite Z.mod_add, Z.mod_small; lia.
Qed.

End Euclid.

(** ** Ranges *)

Lemma iota_length : forall count start step,
    length (iota count start step) = count.
Proof.
  induction count as [|count IH]; intros; simpl; [reflexivity|].
  now rewrite IH.
Qed.

Lemma iota_nth : forall count start step k,
    (k < count)%nat ->
    nth k (iota count start step) 0 = start + Z.of_nat k * step.
Proof.
  induction count as [|count IH]; intros start step k Hk; [lia|].
  destruct k as [|k]; simpl nth.
  - lia.
  - rewrite IH by lia. lia.
Qed.

Lemma in_iota_1 : forall count start x,
    In x (iota count start 1) <-> start <= x < start + Z.of_nat count.
Proof.
  induction count as [|count IH]; intros start x; simpl In.
  - lia.
  - rewrite IH. lia.
Qed.

Lemma in_range2 : forall x a b, In x (range2 a b) <-> a <= x < b.
Proof.
  intros x a b. unfold range2. rewrite in_iota_1. lia.
Qed.

(** ** The monad of random draws *)

Lemma mbind_ok : forall A B (c : M A) (k : A -> M B) t a t',
    c t = Ok (a, t') -> mbind c k t = k a t'.
Proof. intros * H. unfold mbind. now rewrite H. Qed.

Lemma mbind_inv : forall A B (c : M A) (k : A -> M B) t b t2,
    mbind c k t = Ok (b, t2) ->
    exists a t1, c t = Ok (a, t1) /\ k a t1 = Ok (b, t2).
Proof.
  intros * H. unfold mbind in H.
  destruct (c t) as [[a t1]| |]; try discriminate. eauto.
Qed.

Lemma lift_ok : forall A (c : result A) a t,
    c = Ok a -> lift c t = Ok (a, t).
Proof. intros * ->. reflexivity. Qed.

Lemma lift_inv : forall A (c : result A) t a t',
    lift c t = Ok (a, t') -> c = Ok a /\ t' = t.
Proof.
  intros * H. unfold lift in H. destruct c; inversion H; auto.
Qed.

Lemma randrange_ok : forall start stop r t,
    start <= r < stop -> randrange start stop (r :: t) = Ok (r, t).
Proof.
  intros * H. unfold randrange.
  destruct (Z.leb_spec stop start); [lia|].
  destruct (Z.leb_spec start r); [|lia].
  destruct (Z.ltb_spec r stop); [|lia]. reflexivity.
Qed.

Lemma randrange_inv : forall start stop t r t',
    randrange start stop t = Ok (r, t') -> start <= r < stop /\ t = r :: t'.
Proof.
  intros * H. unfold randrange in H.
  destruct (stop <=? start); [discriminate|].
  destruct t as [|r0 t0]; [discriminate|].
  destruct (Z.leb_spec start r0); [|discriminate].
  destruct (Z.ltb_spec r0 stop); [|discriminate].
  inversion H; subst. split; [lia|reflexivity].
Qed.

Lemma pow3_ok : forall base e n,
    n <> 0 -> 0 <= e -> pow3 base e n = Ok ((base ^ e) mod n).
Proof.
  intros * Hn He. unfold pow3.
  destruct (Z.eqb_spec n 0); [contradiction|].
  destruct (Z.ltb_spec e 0); [lia|].
  now rewrite Zpow_mod_correct.
Qed.

(** ** Primality tests *)

Lemma FIRST_FEW_PRIMES_sieve : FIRST_FEW_PRIMES = prime_sieve 1000.
Proof. vm_compute. reflexivity. Qed.

Lemma simple_is_prime_sound : forall n, simple_is_prime n = true -> Z.prime n.
Proof.
  intros n H. unfold simple_is_prime in H.
  destruct (Z.ltb_spec n 2) as [|Hn]; [discriminate|].
  rewrite forallb_forall in H.
  split; [lia|]. intros x Hx [y Hy].
  assert (Hy1 : 1 < y) by nia.
  pose proof (Z.sqrt_spec n ltac:(lia)) as Hs. cbv zeta in Hs.
  unfold isqrt in H.
  assert (Hdiv : forall m, 1 < m -> m * m <= n -> (m | n) -> False).
  { intros m Hm Hmm Hd.
    assert (Hin : In m (range2 2 (Z.sqrt n + 1))).
    { apply in_range2. split; [lia|].
      destruct (Z_lt_le_dec m (Z.sqrt n + 1)) as [|Hge]; [assumption|].
      pose proof (Z.sqrt_nonneg n).
      assert (Z.succ (Z.sqrt n) * Z.succ (Z.sqrt n) <= m * m)
        by (apply Z.mul_le_mono_nonneg; lia).
      lia. }
    apply H in Hin. apply Z.mod0_divide in Hd. rewrite Hd in Hin.
    discriminate. }
  destruct (Z_le_gt_dec x y).
  - apply (Hdiv x); [lia|nia|]. now exists y.
  - apply (Hdiv y); [lia|nia|]. exists x. lia.
Qed.

Lemma split_even_spec : forall fuel d r,
    0 < d < 2 ^ Z.of_nat fuel ->
    exists d' r',
      split_even fuel d r = Ok (d', r') /\
      d = d' * 2 ^ (r' - r) /\ 0 < d' /\ r <= r' /\
      (d mod 2 = 0 -> r < r').
Proof.
  induction fuel as [|fuel IH]; intros d r Hd.
  - simpl in Hd. lia.
  - cbn [split_even]. rewrite Nat2Z.inj_succ, Z.pow_succ_r in Hd by lia.
    pose proof (Z.div_mod d 2 ltac:(lia)) as Hdm.
    pose proof (Z.mod_pos_bound d 2 ltac:(lia)) as Hb.
    destruct (Z.eqb_spec (d mod 2) 0) as [He|He].
    + destruct (IH (d / 2) (r + 1)) as (d' & r' & -> & Hf & Hd' & Hr & _);
        [lia|].
      exists d', r'. split; [reflexivity|].
      split; [|split; [assumption|split; lia]].
      replace (r' - r) with (Z.succ (r' - (r + 1))) by lia.
      rewrite Z.pow_succ_r by lia. lia.
    + exists d, r. rewrite Z.sub_diag. simpl. repeat split; lia.
Qed.

Section RabinMiller.

Variable n : Z.
Hypothesis n_prime : Z.prime n.

Lemma sqrt_of_one : forall x,
    0 <= x < n -> (x ^ 2) mod n = 1 -> x = 1 \/ x = n - 1.
Proof.
  intros x Hx H.
  pose proof (Z.prime_ge_2 _ n_prime).
  assert (Hd : (n | (x - 1) * (x + 1))).
  { exists (x ^ 2 / n).
    pose proof (Z.div_mod (x ^ 2) n ltac:(lia)). lia. }
  apply Z.divide_prime_mul in Hd; [|assumption].
  destruct Hd as [[k Hk]|[k Hk]]; [left|right].
  - assert (k = 0) by nia. lia.
  - assert (k = 1) by nia. lia.
Qed.

(** On a prime, the squaring loop meets [n - 1] before its counter
    reaches [r - 1]. *)
Lemma witness_loop_prime : forall steps fuel r x i,
    (1 <= steps <= fuel)%nat ->
    0 <= x < n -> x <> 1 ->
    (x ^ (2 ^ Z.of_nat steps)) mod n = 1 ->
    i + Z.of_nat steps = r ->
    witness_loop fuel n r x i = Ok true.
Proof.
  pose proof (Z.prime_ge_2 _ n_prime) as Hn.
  induction steps as [|steps IH]; intros fuel r x i Hs Hx Hx1 Hpow Hi;
    [lia|].
  destruct fuel as [|fuel]; [lia|]. cbn [witness_loop].
  destruct (Z.eqb_spec x (n - 1)) as [|Hne]; [reflexivity|].
  assert (Hsq : (x ^ 2) mod n <> 1)
    by (intro Hsq; destruct (sqrt_of_one x Hx Hsq); contradiction).
  rewrite Nat2Z.inj_succ, Z.pow_succ_r, Z.pow_mul_r in Hpow by lia.
  destruct steps as [|steps].
  - change (Z.of_nat 0) with 0 in Hpow.
    rewrite Z.pow_0_r, Z.pow_1_r in Hpow. contradiction.
  - destruct (Z.eqb_spec i (r - 1)); [lia|].
    apply (IH fuel r); try lia.
    + apply Z.mod_pos_bound. lia.
    + now rewrite Z.mod_pow_l.
Qed.

Variables d r : Z.
Hypothesis n_split : n - 1 = d * 2 ^ r.
Hypothesis d_pos : 0 < d.
Hypothesis r_pos : 1 <= r.
Hypothesis n_ge_5 : 5 <= n.

Lemma attempts_prime : forall fuel k t,
    r <= Z.of_nat fuel ->
    Forall (fun a => 2 <= a <= n - 2) t ->
    (k <= length t)%nat ->
    attempts fuel n d r k t = Ok (true, skipn k t).
Proof.
  intros fuel. induction k as [|k IH]; intros t Hf Ht Hk; [reflexivity|].
  destruct t as [|a t]; [simpl in Hk; lia|].
  inversion Ht as [|? ? Ha Ht']; subst.
  cbn [attempts skipn].
  rewrite (mbind_ok _ _ _ _ _ a t) by (apply randrange_ok; lia).
  rewrite (mbind_ok _ _ _ _ _ ((a ^ d) mod n) t)
    by (apply lift_ok, pow3_ok; lia).
  simpl in Hk.
  destruct (Z.eqb_spec ((a ^ d) mod n) 1) as [|Hx1]; cbn [negb].
  - apply IH; [assumption|assumption|lia].
  - rewrite (mbind_ok _ _ _ _ _ true t).
    + apply IH; [assumption|assumption|lia].
    + apply lift_ok. apply (witness_loop_prime (Z.to_nat r)); try lia.
      * apply Z.mod_pos_bound. lia.
      * rewrite Z2Nat.id by lia.
        rewrite Z.mod_pow_l, <- Z.pow_mul_r, <- n_split by lia.
        apply Z.fermat_nz; [assumption|].
        rewrite Z.mod_small; lia.
Qed.

End RabinMiller.

Lemma prime_odd : forall n, Z.prime n -> 5 <= n -> (n - 1) mod 2 = 0.
Proof.
  intros n [_ Hp] Hn.
  pose proof (Z.div_mod n 2 ltac:(lia)) as Hdm.
  pose proof (Z.mod_pos_bound n 2 ltac:(lia)) as Hb.
  assert (Hodd : n mod 2 = 1).
  { destruct (Z.eq_dec (n mod 2) 0) as [H0|]; [|lia].
    exfalso. apply (Hp 2); [lia|]. exists (n / 2). lia. }
  replace (n - 1) with (0 + (n / 2) * 2) by lia.
  now rewrite Z.mod_add.
Qed.

Lemma rabin_miller_prime : forall n k fuel t,
    Z.prime n -> 5 <= n ->
    Z.log2 n < Z.of_nat fuel ->
    Forall (fun a => 2 <= a <= n - 2) t ->
    (Z.to_nat k <= length t)%nat ->
    rabin_miller fuel n k t = Ok (true, skipn (Z.to_nat k) t).
Proof.
  intros n k fuel t Hp Hn Hfuel Ht Hk. unfold rabin_miller.
  assert (Hpow : n < 2 ^ Z.of_nat fuel).
  { apply Z.lt_le_trans with (2 ^ Z.succ (Z.log2 n)).
    - apply Z.log2_spec. lia.
    - apply Z.pow_le_mono_r; lia. }
  destruct (split_even_spec fuel (n - 1) 0) as (d & r & Hs & Hd & Hd' & Hr & Hev);
    [lia|].
  rewrite Z.sub_0_r in Hd.
  specialize (Hev (prime_odd n Hp Hn)).
  rewrite (mbind_ok _ _ _ _ _ (d, r) t) by (now apply lift_ok).
  cbn [fst snd].
  apply attempts_prime; try assumption; try lia.
  assert (2 ^ r < 2 ^ Z.of_nat fuel) by nia.
  apply Z.pow_lt_mono_r_iff in H; lia.
Qed.

(** ** The block codec, [text2int] and [int2text] *)

Lemma le_value_app : forall l1 l2,
    le_value (l1 ++ l2) = le_value l1 + 256 ^ len l1 * le_value l2.
Proof.
  unfold len. induction l1 as [|c l1 IH]; intros l2.
  - cbn [app le_value length]. change (Z.of_nat 0) with 0.
    rewrite Z.pow_0_r. lia.
  - cbn [app le_value length]. rewrite IH, Nat2Z.inj_succ, Z.pow_succ_r by lia.
    ring.
Qed.

Lemma le_value_bound : forall l,
    Forall is_byte l -> 0 <= le_value l < 256 ^ len l.
Proof.
  unfold len. induction 1 as [|c l Hc _ IH].
  - simpl. lia.
  - cbn [le_value length]. rewrite Nat2Z.inj_succ, Z.pow_succ_r by lia.
    unfold is_byte in Hc. lia.
Qed.

Lemma le_value_zeros : forall k, le_value (repeat 0 k) = 0.
Proof. induction k as [|k IH]; simpl le_value; [reflexivity|]. now rewrite IH. Qed.

Lemma skipn_cons_nth : forall (l : list Z) n,
    (n < length l)%nat -> skipn n l = nth n l 0 :: skipn (S n) l.
Proof.
  induction l as [|c l IH]; intros n Hn; [simpl in Hn; lia|].
  destruct n as [|n]; [reflexivity|].
  simpl in Hn. cbn [skipn nth]. rewrite IH by lia. reflexivity.
Qed.

Lemma Forall_take : forall (P : Z -> Prop) n l,
    Forall P l -> Forall P (firstn n l).
Proof.
  intros P n l H. rewrite <- (firstn_skipn n l) in H.
  now apply Forall_app in H.
Qed.

Lemma Forall_drop : forall (P : Z -> Prop) n l,
    Forall P l -> Forall P (skipn n l).
Proof.
  intros P n l H. rewrite <- (firstn_skipn n l) in H.
  now apply Forall_app in H.
Qed.

Lemma fold_left_snoc_map : forall A B (f : A -> B) l init,
    fold_left (fun acc a => acc ++ [f a]) l init = init ++ map f l.
Proof.
  intros A B f. induction l as [|a l IH]; intros init; simpl.
  - now rewrite app_nil_r.
  - rewrite IH, <- app_assoc. reflexivity.
Qed.

Section Codec.

Variable block_size : Z.
Hypothesis block_size_pos : 1 <= block_size.
Variable msg : list Z.

Lemma window_length : forall start,
    0 <= start ->
    len (window block_size msg start) = Z.max 0 (Z.min block_size (len msg - start)).
Proof.
  intros start Hs. unfold window, len.
  rewrite length_firstn, length_skipn. lia.
Qed.

Lemma block_val_fold : forall cnt i acc j0 k,
    0 <= j0 -> 0 <= k -> i = j0 + k * block_size ->
    j0 + Z.of_nat cnt <= block_size ->
    i + Z.of_nat cnt <= len msg ->
    fold_left
      (fun block_val i =>
         block_val + getitem msg i * 256 ^ (i mod block_size))
      (iota cnt i 1) acc
    = acc + 256 ^ j0 * le_value (firstn cnt (skipn (Z.to_nat i) msg)).
Proof.
  induction cnt as [|cnt IH]; intros i acc j0 k Hj Hk Hi Hjc Hic.
  - simpl. lia.
  - cbn [iota fold_left].
    assert (Hi0 : 0 <= i) by nia.
    rewrite (IH (i + 1) _ (j0 + 1) k) by lia.
    rewrite (skipn_cons_nth msg (Z.to_nat i)) by (unfold len in Hic; lia).
    cbn [firstn le_value]. unfold getitem.
    replace (i mod block_size) with j0
      by (subst i; rewrite Z.mod_add, Z.mod_small; lia).
    replace (Z.to_nat (i + 1)) with (S (Z.to_nat i)) by lia.
    rewrite Z.pow_add_r by lia. ring.
Qed.

Lemma block_val_window : forall k,
    0 <= k -> k * block_size < len msg ->
    block_val msg block_size (k * block_size)
    = le_value (window block_size msg (k * block_size)).
Proof.
  intros k Hk Hlt. unfold block_val, range2.
  assert (Hs : 0 <= k * block_size) by nia.
  rewrite (block_val_fold _ _ _ 0 k) by lia.
  rewrite Z.pow_0_r, Z.mul_1_l, Z.add_0_l. unfold window. f_equal.
  set (s := skipn (Z.to_nat (k * block_size)) msg).
  assert (Hlen : length s = Z.to_nat (len msg - k * block_size))
    by (subst s; rewrite length_skipn; unfold len; lia).
  destruct (Z_le_gt_dec block_size (len msg - k * block_size)).
  - f_equal. lia.
  - rewrite !firstn_all2; [reflexivity|lia|lia].
Qed.

(** The starts of the blocks are the multiples of the block size. *)
Lemma text2int_blocks :
    fold_left (fun ints block => ints ++ [block_val msg block_size block])
              (iota (Z.to_nat (range_len 0 (len msg) block_size))
                    0 block_size) []
    = map (fun start => le_value (window block_size msg start))
          (iota (Z.to_nat (range_len 0 (len msg) block_size))
                0 block_size).
Proof.
  rewrite fold_left_snoc_map. cbn [app].
  apply map_ext_in. intros start Hin.
  apply In_nth with (d := 0) in Hin. destruct Hin as (k & Hk & <-).
  rewrite iota_length in Hk. rewrite iota_nth by assumption.
  rewrite Z.add_0_l. apply block_val_window; [lia|].
  unfold range_len in Hk.
  destruct (Z.ltb_spec 0 block_size); [|lia].
  destruct (Z.ltb_spec 0 (len msg)); [|simpl in Hk; lia].
  rewrite Z.sub_0_r in Hk.
  assert (Hk' : Z.of_nat k <= (len msg - 1) / block_size) by lia.
  pose proof (Z.mul_div_le (len msg - 1) block_size ltac:(lia)).
  nia.
Qed.

Lemma range_len_blocks :
    range_len 0 (len msg) block_size
    = (len msg + block_size - 1) / block_size.
Proof.
  unfold range_len.
  destruct (Z.ltb_spec 0 block_size); [|lia].
  destruct (Z.ltb_spec 0 (len msg)) as [Hpos|Hz].
  - rewrite Z.sub_0_r.
    replace (len msg + block_size - 1)
      with (len msg - 1 + 1 * block_size) by lia.
    rewrite Z.div_add by lia. reflexivity.
  - assert (len msg = 0) by (unfold len in *; lia).
    rewrite H0. rewrite Z.div_small; lia.
Qed.

Lemma chr_byte : forall c, is_byte c -> chr c = Ok c.
Proof.
  intros c [H0 H1]. unfold chr.
  destruct (Z.leb_spec 0 c); [|lia].
  destruct (Z.ltb_spec c 1114112); [|lia]. reflexivity.
Qed.

(** Decoding peels the bytes off from the most significant one. *)
Lemma digit_steps : forall l acc,
    Forall is_byte l ->
    foldM digit_step (iota (length l) (len l - 1) (-1)) (le_value l, acc)
    = Ok (0, acc ++ rev l).
Proof.
  induction l as [|c l IH] using rev_ind; intros acc Hl.
  - simpl. now rewrite app_nil_r.
  - apply Forall_app in Hl. destruct Hl as [Hl Hc].
    inversion Hc as [|? ? Hc' _]; subst.
    pose proof (le_value_bound l Hl) as Hb.
    assert (Hp : 0 < 256 ^ len l) by (apply Z.pow_pos_nonneg; unfold len; lia).
    rewrite length_app, Nat.add_1_r. cbn [iota foldM].
    replace (len (l ++ [c]) - 1) with (len l)
      by (unfold len; rewrite length_app; simpl length; lia).
    unfold digit_step at 1. cbn [fst snd].
    rewrite le_value_app. cbn [le_value].
    replace (le_value l + 256 ^ len l * (c + 256 * 0))
      with (le_value l + c * 256 ^ len l) by ring.
    rewrite Z.div_add, Z.mod_add, Z.div_small, Z.mod_small by lia.
    rewrite Z.add_0_l, (chr_byte c Hc'). cbn [bind].
    replace (len l + -1) with (len l - 1) by lia.
    rewrite IH by assumption.
    now rewrite rev_app_distr, <- app_assoc.
Qed.

Lemma block_text_window : forall l,
    Forall is_byte l -> len l <= block_size ->
    block_text block_size (le_value l)
    = Ok (l ++ repeat 0 (Z.to_nat block_size - length l)).
Proof.
  intros l Hl Hlen. unfold block_text, range3, range_len. cbn [bind].
  change (-1 =? 0) with false. change (0 <? -1) with false. cbv iota.
  destruct (Z.ltb_spec (-1) (block_size - 1)); [|lia].
  set (pad := repeat 0 (Z.to_nat block_size - length l)).
  assert (Hlen' : length (l ++ pad) = Z.to_nat block_size)
    by (subst pad; rewrite length_app, repeat_length; unfold len in Hlen; lia).
  assert (Hv : le_value l = le_value (l ++ pad))
    by (subst pad; rewrite le_value_app, le_value_zeros; lia).
  assert (Hb : Forall is_byte (l ++ pad)).
  { apply Forall_app. split; [assumption|].
    subst pad. apply Forall_forall. intros x Hx.
    apply repeat_spec in Hx. subst x. unfold is_byte. lia. }
  replace (Z.to_nat ((block_size - 1 - -1 - 1) / - -1 + 1))
    with (length (l ++ pad))
    by (rewrite Hlen'; change (- -1) with 1; rewrite Z.div_1_r; lia).
  replace (block_size - 1) with (len (l ++ pad) - 1) by (unfold len; lia).
  rewrite Hv. cbn [bind]. rewrite digit_steps by assumption.
  cbn [bind snd app]. now rewrite rev_involutive.
Qed.

Lemma window_bytes : forall start,
    Forall is_byte msg -> Forall is_byte (window block_size msg start).
Proof.
  intros start H. unfold window.
  now apply Forall_take, Forall_drop.
Qed.

(** Decoding the blocks of the windows from [start] on gives back the
    bytes from [start] on, followed by the NULs that fill the last window. *)
Lemma decode_windows : forall count start init,
    Forall is_byte msg ->
    0 <= start ->
    len msg <= start + Z.of_nat count * block_size ->
    ((1 <= count)%nat -> start + (Z.of_nat count - 1) * block_size <= len msg) ->
    exists z,
      foldM (fun text block_int =>
               block_msg <- block_text block_size block_int ;;
               Ok (text ++ block_msg))
            (map (fun start => le_value (window block_size msg start))
                 (iota count start block_size))
            init
      = Ok (init ++ skipn (Z.to_nat start) msg ++ repeat 0 z).
Proof.
  induction count as [|count IH]; intros start init Hb Hs Hcov Hfull.
  - exists O. cbn [iota map foldM repeat].
    rewrite skipn_all2 by (unfold len in Hcov; lia).
    now rewrite !app_nil_r.
  - cbn [iota map foldM].
    pose proof (window_length start Hs) as Hwl.
    rewrite block_text_window by (auto using window_bytes; lia).
    cbn [bind].
    destruct count as [|count].
    + exists (Z.to_nat block_size - length (window block_size msg start))%nat.
      cbn [iota map foldM]. do 2 f_equal.
      unfold window. rewrite firstn_all2; [reflexivity|].
      rewrite length_skipn. unfold len in Hcov. lia.
    + specialize (Hfull ltac:(lia)).
      rewrite !Nat2Z.inj_succ in Hfull, Hcov.
      assert (Hnn : 0 <= Z.of_nat count * block_size) by nia.
      assert (Hfulllen : length (window block_size msg start)
                         = Z.to_nat block_size)
        by (unfold len in Hwl, Hfull; lia).
      destruct (IH (start + block_size)
                   (init ++ window block_size msg start ++
                    repeat 0 (Z.to_nat block_size -
                              length (window block_size msg start))))
        as [z Hz]; [assumption|lia|rewrite Nat2Z.inj_succ; lia|
                    rewrite Nat2Z.inj_succ; lia|].
      exists z. rewrite Hz.
      rewrite Hfulllen, Nat.sub_diag. cbn [repeat].
      rewrite app_nil_r, <- app_assoc. do 2 f_equal.
      rewrite app_assoc. f_equal.
      replace (Z.to_nat (start + block_size))
        with (Z.to_nat block_size + Z.to_nat start)%nat by lia.
      rewrite <- skipn_skipn. unfold window. apply firstn_skipn.
Qed.

End Codec.

Lemma rstrip_nul_cons : forall c s,
    rstrip_nul (c :: s) =
    match rstrip_nul s with
    | [] => if c =? 0 then [] else [c]
    | _ :: _ => c :: rstrip_nul s
    end.
Proof. reflexivity. Qed.

Lemma rstrip_nul_zeros : forall z, rstrip_nul (repeat 0 z) = [].
Proof.
  induction z as [|z IH]; [reflexivity|].
  cbn [repeat]. rewrite rstrip_nul_cons, IH. reflexivity.
Qed.

Lemma rstrip_nul_app_zeros : forall s z,
    rstrip_nul (s ++ repeat 0 z) = rstrip_nul s.
Proof.
  induction s as [|c s IH]; intros z.
  - apply rstrip_nul_zeros.
  - cbn [app]. now rewrite !rstrip_nul_cons, IH.
Qed.

Lemma rstrip_nul_id : forall s, last s 1 <> 0 -> rstrip_nul s = s.
Proof.
  induction s as [|c s IH]; intros H; [reflexivity|].
  rewrite rstrip_nul_cons. destruct s as [|c' s].
  - cbn [rstrip_nul fold_right]. simpl in H.
    destruct (Z.eqb_spec c 0); [contradiction|reflexivity].
  - rewrite IH by exact H. reflexivity.
Qed.

Lemma rstrip_nul_Forall : forall (P : Z -> Prop) s,
    Forall P s -> Forall P (rstrip_nul s).
Proof.
  induction 1 as [|c s Hc _ IH]; [constructor|].
  rewrite rstrip_nul_cons. destruct (rstrip_nul s).
  - destruct (c =? 0); auto.
  - auto.
Qed.

Lemma encode_ascii_ok : forall s, Forall is_ascii s -> encode_ascii s = Ok s.
Proof.
  intros s H. unfold encode_ascii.
  replace (forallb (fun c => (0 <=? c) && (c <? 128)) s) with true;
    [reflexivity|].
  symmetry. apply forallb_forall. rewrite Forall_forall in H.
  intros x Hx. apply H in Hx. unfold is_ascii in Hx.
  apply andb_true_intro. split; [apply Z.leb_le|apply Z.ltb_lt]; lia.
Qed.

Lemma ascii_bytes : forall s, Forall is_ascii s -> Forall is_byte s.
Proof.
  intros s H. eapply Forall_impl; [|exact H].
  unfold is_ascii, is_byte. intros; lia.
Qed.

(** The blocks of an ASCII message are the values of its windows. *)
Lemma text2int_windows : forall m b,
    Forall is_ascii m -> 1 <= b ->
    text2int m b
    = Ok (map (fun start => le_value (window b (rstrip_nul m) start))
              (iota (Z.to_nat ((len (rstrip_nul m) + b - 1) / b)) 0 b)).
Proof.
  intros m b Hm Hb. unfold text2int.
  rewrite encode_ascii_ok by (now apply rstrip_nul_Forall).
  cbn [bind]. unfold range3.
  destruct (Z.eqb_spec b 0); [lia|]. cbn [bind].
  rewrite text2int_blocks, range_len_blocks by assumption.
  reflexivity.
Qed.

Lemma block_count_bounds : forall L b,
    0 <= L -> 1 <= b ->
    let nb := (L + b - 1) / b in
    0 <= nb /\ L <= nb * b /\ (nb - 1) * b < L.
Proof.
  intros L b HL Hb nb.
  pose proof (Z.div_mod (L + b - 1) b ltac:(lia)) as Hdm.
  pose proof (Z.mod_pos_bound (L + b - 1) b ltac:(lia)) as Hmb.
  fold nb in Hdm.
  assert (0 <= nb) by (apply Z.div_pos; lia).
  repeat split; nia.
Qed.

Lemma text2int_bounded : forall m b ints,
    Forall is_ascii m -> 1 <= b ->
    text2int m b = Ok ints ->
    Forall (fun block => 0 <= block < 256 ^ b) ints.
Proof.
  intros m b ints Hm Hb H. rewrite text2int_windows in H by assumption.
  inversion H; subst. apply Forall_forall. intros v Hv.
  apply in_map_iff in Hv. destruct Hv as (start & <- & _).
  set (w := window b (rstrip_nul m) start).
  assert (Hw : Forall is_byte w)
    by (apply window_bytes, ascii_bytes, rstrip_nul_Forall, Hm).
  pose proof (le_value_bound w Hw) as Hbound.
  assert (Hlen : len w <= b)
    by (subst w; unfold window, len; rewrite length_firstn; lia).
  assert (256 ^ len w <= 256 ^ b)
    by (apply Z.pow_le_mono_r; unfold len in *; lia).
  lia.
Qed.

Lemma int2text_text2int : forall m b,
    Forall is_ascii m -> last m 1 <> 0 -> 1 <= b ->
    exists ints, text2int m b = Ok ints /\ int2text ints b = Ok m.
Proof.
  intros m b Hm Hlast Hb. eexists. split; [now apply text2int_windows|].
  rewrite (rstrip_nul_id m Hlast).
  pose proof (block_count_bounds (len m) b ltac:(unfold len; lia) Hb)
    as (Hnb0 & Hcov & Hfull). cbv zeta in *.
  destruct (decode_windows b Hb m
              (Z.to_nat ((len m + b - 1) / b)) 0 [])
    as [z Hz].
  - now apply ascii_bytes.
  - lia.
  - rewrite Z2Nat.id by assumption. lia.
  - intros _. rewrite Z2Nat.id by assumption.
    lia.
  - unfold int2text. rewrite Hz. cbn [bind app skipn Z.to_nat].
    now rewrite rstrip_nul_app_zeros, rstrip_nul_id.
Qed.

(** ** Key generation and the cipher *)

Lemma euclid_fuel_mono : forall fuel a b x lastx l,
    euclid fuel a b x lastx = Ok l ->
    forall fuel', (fuel <= fuel')%nat -> euclid fuel' a b x lastx = Ok l.
Proof.
  induction fuel as [|fuel IH]; intros a b x lastx l H fuel' Hle;
    [discriminate|].
  destruct fuel' as [|fuel']; [lia|]. cbn [euclid] in *.
  destruct (b =? 0); [assumption|]. apply IH; [assumption|lia].
Qed.

Lemma multinv_fuel_mono : forall fuel mod_ val d,
    multinv fuel mod_ val = Ok d ->
    forall fuel', (fuel <= fuel')%nat -> multinv fuel' mod_ val = Ok d.
Proof.
  unfold multinv. intros fuel mod_ val d H fuel' Hle.
  destruct (euclid fuel mod_ val 0 1) as [l| |] eqn:He; try discriminate.
  now rewrite (euclid_fuel_mono _ _ _ _ _ _ He fuel' Hle).
Qed.

Lemma multinv_ok_inverse : forall fuel mod_ val d,
    multinv fuel mod_ val = Ok d ->
    1 < mod_ -> 0 < val -> Z.gcd mod_ val = 1 ->
    0 <= d < mod_ /\ (val * d) mod mod_ = 1.
Proof.
  intros fuel mod_ val d H Hm Hv Hg.
  apply multinv_fuel_mono with (fuel' := (fuel + S (Z.to_nat val))%nat) in H;
    [|lia].
  destruct (multinv_pos_spec mod_ val Hv Hm Hg
              (fuel + S (Z.to_nat val))%nat) as (x & Hx & Hr); [lia|].
  rewrite Hx in H. inversion H; subst. exact Hr.
Qed.

Lemma fermat_cycle : forall p x j,
    Z.prime p -> 0 <= j -> (x ^ (1 + (p - 1) * j)) mod p = x mod p.
Proof.
  intros p x j Hp Hj. pose proof (Z.prime_ge_2 _ Hp) as Hp2.
  rewrite Z.pow_add_r, Z.pow_1_r, Z.pow_mul_r by nia.
  destruct (Z.eq_dec (x mod p) 0) as [H0|Hnz].
  - rewrite <- Z.mul_mod_idemp_l, H0 by lia. rewrite Z.mul_0_l.
    now rewrite Z.mod_0_l by lia.
  - rewrite <- Z.mul_mod_idemp_r, <- Z.mod_pow_l by lia.
    rewrite (Z.fermat_nz p x Hp Hnz), Z.pow_1_l, Z.mod_1_l by lia.
    now rewrite Z.mul_1_r.
Qed.

Lemma cong_divide : forall a b p,
    0 < p -> a mod p = b mod p -> (p | a - b).
Proof.
  intros a b p Hp H. apply Z.mod_divide; [lia|].
  rewrite Zminus_mod, H, Z.sub_diag. apply Z.mod_0_l. lia.
Qed.

(** Textbook RSA on a product of two distinct primes. *)
Lemma rsa_inverse : forall p q e d x,
    Z.prime p -> Z.prime q -> p <> q ->
    0 <= e -> 0 <= d -> (e * d) mod ((p - 1) * (q - 1)) = 1 ->
    0 <= x < p * q ->
    (((x ^ e) mod (p * q)) ^ d) mod (p * q) = x.
Proof.
  intros p q e d x Hp Hq Hpq He Hd Hed Hx.
  pose proof (Z.prime_ge_2 _ Hp) as Hp2. pose proof (Z.prime_ge_2 _ Hq) as Hq2.
  assert (Hphi : 0 < (p - 1) * (q - 1)) by nia.
  rewrite Z.mod_pow_l, <- Z.pow_mul_r by lia.
  pose proof (Z.div_mod (e * d) ((p - 1) * (q - 1)) ltac:(lia)) as Hdm.
  rewrite Hed in Hdm.
  set (k := e * d / ((p - 1) * (q - 1))) in *.
  assert (Hk : 0 <= k) by (apply Z.div_pos; nia).
  assert (Dp : (p | x ^ (e * d) - x)).
  { apply cong_divide; [lia|].
    replace (e * d) with (1 + (p - 1) * ((q - 1) * k)) by lia.
    apply fermat_cycle; [assumption|nia]. }
  assert (Dq : (q | x ^ (e * d) - x)).
  { apply cong_divide; [lia|].
    replace (e * d) with (1 + (q - 1) * ((p - 1) * k)) by lia.
    apply fermat_cycle; [assumption|nia]. }
  assert (Hco : Z.gcd q p = 1).
  { apply Z.coprime_prime_l; [assumption|].
    intro Hdiv. apply Hpq. symmetry.
    now apply Z.divide_prime_prime. }
  destruct Dp as [u Hu].
  rewrite Hu, Z.mul_comm in Dq. apply Z.gauss in Dq; [|assumption].
  destruct Dq as [w Hw].
  replace (x ^ (e * d)) with (x + w * (p * q)) by lia.
  rewrite Z.mod_add, Z.mod_small; lia.
Qed.

Lemma mapM_pow3 : forall e n l,
    n <> 0 -> 0 <= e ->
    mapM (fun block => pow3 block e n) l
    = Ok (map (fun block => (block ^ e) mod n) l).
Proof.
  intros e n l Hn He. induction l as [|v l IH]; [reflexivity|].
  cbn [mapM map]. rewrite pow3_ok, IH by assumption. reflexivity.
Qed.

Lemma is_prime_true_ge_2 : forall fuel n t t',
    is_prime fuel n t = Ok (true, t') -> 2 <= n.
Proof.
  intros fuel n t t' H. unfold is_prime in H.
  destruct (Z.ltb_spec n 2); [|lia]. discriminate.
Qed.

Lemma find_random_prime_inv : forall loops fuel start stop t n t',
    find_random_prime loops fuel start stop t = Ok (n, t') ->
    start <= n < stop /\ 2 <= n.
Proof.
  induction loops as [|loops IH]; intros fuel start stop t n t' H;
    [discriminate|].
  cbn [find_random_prime] in H.
  apply mbind_inv in H. destruct H as (c & t1 & Hc & H).
  apply randrange_inv in Hc. destruct Hc as [Hc _].
  apply mbind_inv in H. destruct H as (b & t2 & Hb & H).
  destruct b.
  - inversion H; subst. split; [assumption|].
    eapply is_prime_true_ge_2; eassumption.
  - eapply IH; eassumption.
Qed.

Lemma get_key_prime_inv : forall fuel size t n t',
    get_key_prime fuel size t = Ok (n, t') ->
    2 ^ (size - 1) <= n < 2 ^ size /\ 2 <= n.
Proof.
  intros fuel size t n t' H. unfold get_key_prime in H.
  destruct (size <? 1); [discriminate|].
  eapply find_random_prime_inv; eassumption.
Qed.

Lemma draw_pq_inv : forall loops fuel key_size p0 q0 t p q t',
    draw_pq loops fuel key_size p0 q0 t = Ok ((p, q), t') ->
    p <> q /\ ((p = p0 /\ q = q0) \/ (2 <= p /\ 2 <= q)).
Proof.
  induction loops as [|loops IH]; intros fuel key_size p0 q0 t p q t' H;
    [discriminate|].
  cbn [draw_pq] in H. destruct (Z.eqb_spec p0 q0) as [He|Hne].
  - apply mbind_inv in H. destruct H as (p1 & t1 & Hp1 & H).
    apply mbind_inv in H. destruct H as (q1 & t2 & Hq1 & H).
    apply get_key_prime_inv in Hp1. apply get_key_prime_inv in Hq1.
    apply IH in H. destruct H as [Hpq [[-> ->]|H]]; split; auto; right; lia.
  - inversion H; subst. auto.
Qed.

Lemma find_random_coprime_inv : forall loops n start stop t e t',
    find_random_coprime loops n start stop t = Ok (e, t') ->
    start <= e < stop /\ fractions_gcd e n = 1.
Proof.
  induction loops as [|loops IH]; intros n start stop t e t' H;
    [discriminate|].
  cbn [find_random_coprime] in H.
  apply mbind_inv in H. destruct H as (c & t1 & Hc & H).
  apply randrange_inv in Hc. destruct Hc as [Hc _].
  destruct (Z.eqb_spec (fractions_gcd c n) 1).
  - inversion H; subst. auto.
  - eapply IH; eassumption.
Qed.

(** What a returned key pair is made of. *)
Lemma generate_key_pair_inv : forall fuel key_size ude t pub priv t',
    generate_key_pair fuel key_size ude t = Ok ((pub, priv), t') ->
    exists p q e d t1,
      draw_pq fuel fuel key_size 0 0 t = Ok ((p, q), t1) /\
      pub = (p * q, e) /\ priv = (p * q, d) /\
      p <> q /\ 2 <= p /\ 2 <= q /\ 65537 <= e /\
      multinv fuel ((p - 1) * (q - 1)) e = Ok d.
Proof.
  intros fuel key_size ude t pub priv t' H. unfold generate_key_pair in H.
  apply mbind_inv in H. destruct H as ([p q] & t1 & Hpq & H).
  cbn [fst snd] in H. unfold derive_keys in H.
  apply mbind_inv in H. destruct H as (e & t2 & He & H).
  apply mbind_inv in H. destruct H as (d & t3 & Hd & H).
  apply lift_inv in Hd. destruct Hd as [Hd _].
  inversion H; subst.
  exists p, q, e, d, t1.
  pose proof (draw_pq_inv _ _ _ _ _ _ _ _ _ Hpq) as [Hne Hr].
  repeat split; try assumption; try lia.
  destruct ude.
  - inversion He. unfold DEFAULT_EXP. lia.
  - unfold get_key_coprime in He. destruct (key_size <? 0); [discriminate|].
    apply find_random_coprime_inv in He. unfold DEFAULT_EXP in He. lia.
Qed.

Lemma text2int_returns : forall m b,
    Forall is_ascii m -> b <> 0 -> exists blocks, text2int m b = Ok blocks.
Proof.
  intros m b Hm Hb. unfold text2int.
  rewrite encode_ascii_ok by (now apply rstrip_nul_Forall).
  cbn [bind]. unfold range3.
  destruct (Z.eqb_spec b 0); [contradiction|]. cbn [bind]. eauto.
Qed.

(** * The claims *)

(** ** The block codec *)

(** C2. For every ASCII string [m] with no trailing NUL and every block
    size [b >= 1], decoding the blocks of [m] gives [m] back:
    [int2text(text2int(m, b), b) == m]. *)
Theorem codec_round_trip : forall m b,
    Forall is_ascii m -> last m 1 <> 0 -> 1 <= b ->
    (ints <- text2int m b ;; int2text ints b) = Ok m.
Proof.
  intros m b Hm Hlast Hb.
  destruct (int2text_text2int m b Hm Hlast Hb) as (ints & -> & H).
  exact H.
Qed.

Lemma codec_round_trip_witness :
  (ints <- text2int [97; 98; 99] 2 ;; int2text ints 2) = Ok [97; 98; 99].
Proof.
  apply codec_round_trip.
  - repeat constructor; unfold is_ascii; lia.
  - simpl; lia.
  - lia.
Defined.

(** C7. For every ASCII message [m] and block size [b >= 1], [text2int]
    returns exactly [ceil(L / b)] blocks, [L] being the number of bytes of
    [m] once its trailing NULs are stripped; [b] bytes give one block, and
    [b + 1] bytes give two blocks, the second being the value of the one
    trailing byte. *)
Theorem text2int_block_count : forall m b,
    Forall is_ascii m -> 1 <= b ->
    exists ints,
      text2int m b = Ok ints /\
      len ints = (len (rstrip_nul m) + b - 1) / b /\
      (len ints - 1) * b < len (rstrip_nul m) <= len ints * b /\
      (len (rstrip_nul m) = b -> len ints = 1) /\
      (len (rstrip_nul m) = b + 1 ->
       exists first, ints = [first; getitem (rstrip_nul m) b]).
Proof.
  intros m b Hm Hb. eexists. split; [now apply text2int_windows|].
  set (s := rstrip_nul m). set (L := len s).
  assert (HL : 0 <= L) by (subst L; unfold len; lia).
  pose proof (block_count_bounds L b HL Hb) as (Hnb0 & Hcov & Hfull).
  cbv zeta in *.
  assert (Hlen : len (map (fun start => le_value (window b s start))
                          (iota (Z.to_nat ((L + b - 1) / b)) 0 b))
                 = (L + b - 1) / b)
    by (unfold len; rewrite length_map, iota_length; lia).
  rewrite Hlen. split; [reflexivity|]. split; [|split].
  - lia.
  - intros ->. replace (b + b - 1) with (b - 1 + 1 * b) by lia.
    rewrite Z.div_add, Z.div_small; lia.
  - intros HL1. rewrite HL1 in *.
    replace (b + 1 + b - 1) with (0 + 2 * b) by lia.
    rewrite Z.div_add, Z.div_small by lia.
    change (Z.to_nat (0 + 2)) with 2%nat. cbn [iota map].
    eexists. do 2 f_equal. rewrite Z.add_0_l. unfold window, getitem.
    rewrite (skipn_cons_nth s (Z.to_nat b))
      by (subst L; unfold len in HL1; lia).
    rewrite skipn_all2
      by (subst L; unfold len in HL1; lia).
    replace (Z.to_nat b) with (S (Z.to_nat (b - 1))) at 1 by lia.
    cbn [firstn le_value]. rewrite firstn_nil. cbn [le_value]. lia.
Qed.

Lemma text2int_block_count_witness :
  exists ints,
    text2int [97; 98; 99; 0] 2 = Ok ints /\
    len ints = (len (rstrip_nul [97; 98; 99; 0]) + 2 - 1) / 2 /\
    (len ints - 1) * 2 < len (rstrip_nul [97; 98; 99; 0]) <= len ints * 2 /\
    (len (rstrip_nul [97; 98; 99; 0]) = 2 -> len ints = 1) /\
    (len (rstrip_nul [97; 98; 99; 0]) = 2 + 1 ->
     exists first, ints = [first; getitem (rstrip_nul [97; 98; 99; 0]) 2]).
Proof.
  apply text2int_block_count.
  - repeat constructor; unfold is_ascii; lia.
  - lia.
Defined.

(** C8. For every ASCII message [m] and block size [b >= 1], every block
    returned by [text2int(m, b)] is non-negative and below [256 ^ b]. *)
Theorem text2int_block_range : forall m b,
    Forall is_ascii m -> 1 <= b ->
    exists ints,
      text2int m b = Ok ints /\
      Forall (fun block => 0 <= block < 256 ^ b) ints.
Proof.
  intros m b Hm Hb. eexists. split; [now apply text2int_windows|].
  eapply text2int_bounded; [exact Hm|exact Hb|].
  now apply text2int_windows.
Qed.

Lemma text2int_block_range_witness :
  exists ints,
    text2int [97; 98; 99] 2 = Ok ints /\
    Forall (fun block => 0 <= block < 256 ^ 2) ints.
Proof.
  apply text2int_block_range.
  - repeat constructor; unfold is_ascii; lia.
  - lia.
Defined.

(** ** The modular inverse *)

(** C4, as amended. For every modulus [> 1] and every value [>= 1] coprime
    to it, [multinv(modulus, value)] returns an [x] in [0, modulus) with
    [(value * x) mod modulus == 1]; in particular [multinv(11, 3) == 4]. *)
Theorem multinv_inverse : forall mod_ val fuel,
    1 < mod_ -> 0 < val -> Z.gcd mod_ val = 1 ->
    Z.abs val < Z.of_nat fuel ->
    exists x,
      multinv fuel mod_ val = Ok x /\
      0 <= x < mod_ /\ (val * x) mod mod_ = 1 /\
      (mod_ = 11 -> val = 3 -> x = 4).
Proof.
  intros mod_ val fuel Hm Hv Hg Hfuel.
  destruct (multinv_pos_spec mod_ val Hv Hm Hg fuel Hfuel)
    as (x & Hx & Hr & Hinv).
  exists x. repeat split; try assumption; try lia.
  intros -> ->. Z.div_mod_to_equations. lia.
Qed.

Lemma multinv_inverse_witness :
  exists x,
    multinv 4 11 3 = Ok x /\
    0 <= x < 11 /\ (3 * x) mod 11 = 1 /\ (11 = 11 -> 3 = 3 -> x = 4).
Proof.
  apply multinv_inverse; [lia|lia|reflexivity|simpl; lia].
Defined.

(** The inverse of a negative value is wrong: [multinv(11, -3)] is [3],
    and [(-3 * 3) mod 11] is [2]. *)
Lemma multinv_negative_value :
  1 < 11 /\ Z.gcd 11 (-3) = 1 /\
  multinv 4 11 (-3) = Ok 3 /\ (-3 * 3) mod 11 = 2 /\ (-3 * 3) mod 11 <> 1.
Proof.
  repeat split; try reflexivity; try lia. discriminate.
Qed.

(** C10. [multinv(modulus, value)] terminates for every modulus and every
    nonzero value, coprime or not: the loop reaches [b = 0] after at most
    [|value|] turns and an integer is returned; only [value = 0] ends in a
    division error. *)
Theorem multinv_terminates : forall mod_ val fuel,
    Z.abs val < Z.of_nat fuel ->
    exists x,
      multinv fuel mod_ val
      = if val =? 0 then Raise ZeroDivisionError else Ok x.
Proof.
  intros mod_ val fuel Hfuel. unfold multinv.
  destruct (euclid_terminates fuel mod_ val 0 1 Hfuel) as [l ->].
  cbn [bind]. destruct (val =? 0); eauto.
Qed.

Lemma multinv_terminates_witness :
  exists x, multinv 7 12 (-6) = if -6 =? 0 then Raise ZeroDivisionError else Ok x.
Proof.
  apply multinv_terminates. simpl; lia.
Defined.

(** ** Primality *)

(** C9. For every prime [n >= 5] (such a prime is odd), every round count
    [k] and every sequence of bases drawn in [2, n-2], [rabin_miller(n, k)]
    returns [True]. *)
Theorem rabin_miller_accepts_primes : forall n k fuel t,
    Z.prime n -> 5 <= n ->
    Z.log2 n < Z.of_nat fuel ->
    Forall (fun a => 2 <= a <= n - 2) t ->
    (Z.to_nat k <= length t)%nat ->
    rabin_miller fuel n k t = Ok (true, skipn (Z.to_nat k) t).
Proof.
  intros. now apply rabin_miller_prime.
Qed.

Lemma rabin_miller_accepts_primes_witness :
  rabin_miller 5 13 3 [2; 7; 11; 5] = Ok (true, skipn (Z.to_nat 3) [2; 7; 11; 5]).
Proof.
  apply rabin_miller_accepts_primes.
  - apply simple_is_prime_sound. reflexivity.
  - lia.
  - simpl; lia.
  - repeat constructor; lia.
  - simpl; lia.
Defined.

Lemma known_prime : Z.prime 109182490673.
Proof. apply simple_is_prime_sound. vm_compute. reflexivity. Qed.

(** C5. [is_prime(109182490673)] is [True] whatever bases the five rounds
    of Miller-Rabin draw; [is_prime(4)] and [is_prime(1)] are [False] and
    [is_prime(17)] is [True], without any draw. *)
Theorem is_prime_examples :
  (forall fuel t,
      36 < Z.of_nat fuel ->
      Forall (fun a => 2 <= a <= 109182490673 - 2) t ->
      (5 <= length t)%nat ->
      is_prime fuel 109182490673 t = Ok (true, skipn 5 t)) /\
  (forall fuel t, is_prime fuel 4 t = Ok (false, t)) /\
  (forall fuel t, is_prime fuel 1 t = Ok (false, t)) /\
  (forall fuel t, is_prime fuel 17 t = Ok (true, t)).
Proof.
  repeat split; try reflexivity.
  intros fuel t Hfuel Ht Hlen. unfold is_prime.
  replace (109182490673 <? 2) with false by reflexivity.
  replace (existsb (Z.eqb 109182490673) FIRST_FEW_PRIMES) with false
    by (vm_compute; reflexivity).
  replace (existsb (fun prime => 109182490673 mod prime =? 0)
                   FIRST_FEW_PRIMES) with false
    by (vm_compute; reflexivity).
  apply (rabin_miller_prime 109182490673 5 fuel t known_prime);
    [lia|exact Hfuel|exact Ht|exact Hlen].
Qed.

Lemma is_prime_examples_witness :
  is_prime 37 109182490673 [2; 3; 5; 7; 109182490671]
  = Ok (true, skipn 5 [2; 3; 5; 7; 109182490671]).
Proof.
  apply (proj1 is_prime_examples).
  - simpl; lia.
  - repeat constructor; lia.
  - simpl; lia.
Defined.

(** ** Key generation *)

(** C3, at a failing outcome. With 20-bit keys and the draws [917519] and
    [524309] (both prime, both accepted by [is_prime]),
    [generate_key_pair] keeps the default exponent [65537] although it
    divides [p - 1]: the exponent is not coprime to [(p-1)*(q-1)], the
    private exponent is [0] and [(e * d) mod ((p-1)*(q-1))] is [0]. *)
Theorem generate_key_pair_exponent_not_coprime :
  let t := [917519; 2; 3; 5; 7; 11; 524309; 2; 3; 5; 7; 11] in
  let p := 917519 in
  let q := 524309 in
  Z.prime p /\ Z.prime q /\
  draw_pq 40 40 20 0 0 t = Ok ((p, q), []) /\
  generate_key_pair 40 20 true t = Ok (((p * q, 65537), (p * q, 0)), []) /\
  Z.gcd 65537 ((p - 1) * (q - 1)) = 65537 /\
  (65537 * 0) mod ((p - 1) * (q - 1)) = 0.
Proof.
  cbv zeta.
  split; [apply simple_is_prime_sound; vm_compute; reflexivity|].
  split; [apply simple_is_prime_sound; vm_compute; reflexivity|].
  repeat split; vm_compute; reflexivity.
Qed.

(** What holds of every returned key pair: [p <> q], [n = p * q], and the
    private exponent inverts the public one whenever the public exponent
    is coprime to [(p-1)*(q-1)]. *)
Lemma generate_key_pair_valid : forall fuel key_size ude t pub priv t',
    generate_key_pair fuel key_size ude t = Ok ((pub, priv), t') ->
    exists p q t1,
      draw_pq fuel fuel key_size 0 0 t = Ok ((p, q), t1) /\
      p <> q /\ fst pub = p * q /\ fst priv = p * q /\
      (Z.gcd (snd pub) ((p - 1) * (q - 1)) = 1 ->
       0 <= snd priv < (p - 1) * (q - 1) /\
       (snd pub * snd priv) mod ((p - 1) * (q - 1)) = 1).
Proof.
  intros fuel key_size ude t pub priv t' H.
  destruct (generate_key_pair_inv _ _ _ _ _ _ _ H)
    as (p & q & e & d & t1 & Hpq & -> & -> & Hne & Hp & Hq & He & Hd).
  exists p, q, t1. cbn [fst snd].
  split; [assumption|]. split; [assumption|].
  split; [reflexivity|]. split; [reflexivity|].
  intros Hg. rewrite Z.gcd_comm in Hg.
  apply (multinv_ok_inverse _ _ _ _ Hd); [nia|lia|assumption].
Qed.

(** ** The cipher of crypt.py *)

(** C1, as amended. For every key pair returned by [generate_key_pair]
    whose draws [p] and [q] are prime and whose public exponent is coprime
    to [(p-1)*(q-1)], every ASCII message [m] without trailing NUL and
    every block size [b >= 1] with [b * 8] below the bit size of the
    modulus, [decrypt(encrypt(m, pub, b), priv, b) == m]. *)
Theorem encrypt_decrypt_inverse :
  forall fuel key_size ude t p q t1 pub priv t2 m b,
    draw_pq fuel fuel key_size 0 0 t = Ok ((p, q), t1) ->
    generate_key_pair fuel key_size ude t = Ok ((pub, priv), t2) ->
    Z.prime p -> Z.prime q ->
    Z.gcd (snd pub) ((p - 1) * (q - 1)) = 1 ->
    Forall is_ascii m -> last m 1 <> 0 ->
    1 <= b -> b * 8 < bit_size (fst pub) ->
    (c <- encrypt m pub b ;; decrypt c priv b) = Ok m.
Proof.
  intros fuel key_size ude t p q t1 pub priv t2 m b
         Hdraw Hgen Hp Hq Hg Hm Hlast Hb Hbits.
  destruct (generate_key_pair_inv _ _ _ _ _ _ _ Hgen)
    as (p' & q' & e & d & t1' & Hpq & -> & -> & Hne & Hp2 & Hq2 & He & Hd).
  rewrite Hdraw in Hpq. inversion Hpq; subst p' q' t1'. clear Hpq.
  cbn [fst snd] in *. rewrite Z.gcd_comm in Hg.
  destruct (multinv_ok_inverse _ _ _ _ Hd) as [Hr Hinv];
    [nia|lia|assumption|].
  assert (Hn : 0 < p * q) by nia.
  destruct (int2text_text2int m b Hm Hlast Hb) as (ints & Hints & Hback).
  pose proof (text2int_bounded m b ints Hm Hb Hints) as Hrange.
  assert (Hfit : 256 ^ b <= p * q).
  { unfold bit_size in Hbits.
    pose proof (Z.log2_spec (p * q) Hn) as [Hlo _].
    change 256 with (2 ^ 8). rewrite <- Z.pow_mul_r by lia.
    apply Z.le_trans with (2 ^ Z.log2 (p * q)); [|exact Hlo].
    apply Z.pow_le_mono_r; lia. }
  unfold encrypt, decrypt. rewrite Hints. cbn [bind].
  rewrite mapM_pow3 by lia. cbn [bind].
  rewrite mapM_pow3 by lia. cbn [bind].
  rewrite map_map.
  replace (map (fun x => (((x ^ e) mod (p * q)) ^ d) mod (p * q)) ints)
    with ints; [exact Hback|].
  rewrite <- (map_id ints) at 1. apply map_ext_in.
  intros x Hx. rewrite Forall_forall in Hrange. specialize (Hrange x Hx).
  symmetry. apply rsa_inverse; try assumption; lia.
Qed.

Lemma encrypt_decrypt_inverse_witness :
  (c <- encrypt [97; 98] (274916705369, 65537) 2 ;;
   decrypt c (274916705369, 33843775553) 2) = Ok [97; 98].
Proof.
  apply (encrypt_decrypt_inverse
           40 20 true [524309; 2; 3; 5; 7; 11; 524341; 2; 3; 5; 7; 11]
           524309 524341 [] (274916705369, 65537)
           (274916705369, 33843775553) []).
  - vm_compute; reflexivity.
  - vm_compute; reflexivity.
  - apply simple_is_prime_sound; vm_compute; reflexivity.
  - apply simple_is_prime_sound; vm_compute; reflexivity.
  - vm_compute; reflexivity.
  - repeat constructor; unfold is_ascii; lia.
  - simpl; lia.
  - lia.
  - vm_compute; reflexivity.
Defined.

(** A key pair built on a composite: [1678541 = 1013 * 1657] passes the
    trial divisions and five rounds of Miller-Rabin with base [2], the
    exponent [65537] is coprime to [(p-1)*(q-1)], the block size [5] fits
    the 41-bit modulus, and the message ["a"] is decrypted to something
    else. *)
Lemma encrypt_decrypt_pseudoprime :
  let t := [1678541; 2; 2; 2; 2; 2; 1048583; 2; 3; 5; 7; 11] in
  let pub := (1760089557403, 65537) in
  let priv := (1760089557403, 621403010193) in
  generate_key_pair 40 21 true t = Ok ((pub, priv), []) /\
  draw_pq 40 40 21 0 0 t = Ok ((1678541, 1048583), []) /\
  1678541 = 1013 * 1657 /\
  Z.gcd 65537 ((1678541 - 1) * (1048583 - 1)) = 1 /\
  Forall is_ascii [97] /\ last [97] 1 <> 0 /\
  5 * 8 < bit_size (fst pub) /\
  (c <- encrypt [97] pub 5 ;; decrypt c priv 5) = Ok [248; 9; 94; 95; 178] /\
  (c <- encrypt [97] pub 5 ;; decrypt c priv 5) <> Ok [97].
Proof.
  cbv zeta. repeat split; try (vm_compute; reflexivity).
  - repeat constructor; unfold is_ascii; lia.
  - simpl; lia.
  - vm_compute. discriminate.
Qed.

(** ** The cipher of dcrypt.py *)

(** C6, as amended. For every ASCII message, every key [(n, e, size)]
    with [n <> 0] and [e >= 0] and every block size other than [0],
    [encrypt] raises an error if and only if [size <= block_size * 8], the
    error being the key-size one; when it does not raise, it returns the
    per-block values [pow(block, e, n)] of the blocks of the message. *)
Theorem encrypt_key_bits_check : forall msg n e size block_size,
    Forall is_ascii msg -> block_size <> 0 -> n <> 0 -> 0 <= e ->
    ((exists ex, Dcrypt.encrypt msg (n, e, size) block_size = Raise ex)
     <-> size <= block_size * 8) /\
    (size <= block_size * 8 ->
     Dcrypt.encrypt msg (n, e, size) block_size = Raise KeyBitsError) /\
    (block_size * 8 < size ->
     exists blocks,
       Dcrypt.text2int msg block_size = Ok blocks /\
       Dcrypt.encrypt msg (n, e, size) block_size
       = Ok (map (fun block => (block ^ e) mod n) blocks)).
Proof.
  intros msg n e size block_size Hm Hb Hn He.
  unfold Dcrypt.encrypt, Dcrypt.text2int.
  destruct (text2int_returns msg block_size Hm Hb) as [blocks Hblocks].
  rewrite Hblocks. cbn [bind]. rewrite mapM_pow3 by assumption.
  destruct (Z.leb_spec size (block_size * 8)) as [Hle|Hgt].
  - split; [|split].
    + split; [intros _; assumption|intros _; now exists KeyBitsError].
    + reflexivity.
    + lia.
  - split; [|split].
    + split; [intros [ex Hex]; discriminate|lia].
    + lia.
    + intros _. exists blocks. split; reflexivity.
Qed.

Lemma encrypt_key_bits_check_witness :
  ((exists ex, Dcrypt.encrypt [97] (3233, 17, 12) 1 = Raise ex)
   <-> 12 <= 1 * 8) /\
  (12 <= 1 * 8 -> Dcrypt.encrypt [97] (3233, 17, 12) 1 = Raise KeyBitsError) /\
  (1 * 8 < 12 ->
   exists blocks,
     Dcrypt.text2int [97] 1 = Ok blocks /\
     Dcrypt.encrypt [97] (3233, 17, 12) 1
     = Ok (map (fun block => (block ^ 17) mod 3233) blocks)).
Proof.
  apply encrypt_key_bits_check.
  - repeat constructor; unfold is_ascii; lia.
  - lia.
  - lia.
  - lia.
Defined.

(** A non-ASCII message makes [encrypt] raise although the declared key
    size [1024] exceeds [16 * 8]. *)
Lemma encrypt_non_ascii_raises :
  Dcrypt.encrypt [233] (3233, 17, 1024) 16 = Raise UnicodeEncodeError /\
  ~ 1024 <= 16 * 8.
Proof.
  split; [reflexivity|lia].
Qed.

(** * Further properties of the code *)

(** ** Trial division and the sieve *)

Lemma simple_is_prime_complete : forall n, Z.prime n -> simple_is_prime n = true.
Proof.
  intros n [Hn Hp]. unfold simple_is_prime, isqrt.
  destruct (Z.ltb_spec n 2); [lia|].
  apply forallb_forall. intros i Hi. apply in_range2 in Hi.
  pose proof (Z.sqrt_lt_lin n ltac:(lia)).
  destruct (Z.eqb_spec (n mod i) 0) as [Hz|]; [|reflexivity].
  exfalso. apply (Hp i); [lia|]. apply Z.mod_divide; [lia|exact Hz].
Qed.

(** For [n < 2 ^ 52], where [int(math.sqrt(n))] is the integer square
    root, [simple_is_prime(n)] is [True] exactly when [n] is prime. *)
Theorem simple_is_prime_exact : forall n,
    n < 2 ^ 52 ->
    (simple_is_prime n = true <-> Z.prime n).
Proof.
  intros n _. split;
    [apply simple_is_prime_sound|apply simple_is_prime_complete].
Qed.

Lemma simple_is_prime_exact_witness :
  simple_is_prime 109182490673 = true <-> Z.prime 109182490673.
Proof.
  apply simple_is_prime_exact. vm_compute. reflexivity.
Defined.

Lemma set_false_length : forall (l : list bool) p,
    (p < length l)%nat ->
    length (firstn p l ++ false :: skipn (S p) l) = length l.
Proof.
  intros l p Hp. rewrite length_app, length_firstn. cbn [length].
  rewrite length_skipn. lia.
Qed.

Lemma set_false_nth : forall (l : list bool) p j,
    (p < length l)%nat ->
    nth j (firstn p l ++ false :: skipn (S p) l) false
    = if (j =? p)%nat then false else nth j l false.
Proof.
  induction l as [|a l IH]; intros p j Hp; [simpl in Hp; lia|].
  destruct p as [|p], j as [|j]; try reflexivity.
  cbn [firstn skipn app nth Nat.eqb]. apply IH. simpl in Hp. lia.
Qed.

Lemma nth_true_lt : forall (l : list bool) j,
    nth j l false = true -> (j < length l)%nat.
Proof.
  intros l j H. destruct (Nat.lt_ge_cases j (length l)) as [|Hge];
    [assumption|].
  rewrite nth_overflow in H by assumption. discriminate.
Qed.

(** One pass of the inner loop clears the entries [pointer],
    [pointer + step], ... and nothing else. *)
Lemma strike_spec : forall fuel size step pointer sieve,
    0 < step -> 0 <= pointer ->
    length sieve = Z.to_nat size ->
    size - pointer <= Z.of_nat fuel * step ->
    length (strike fuel size step pointer sieve) = length sieve /\
    forall j,
      nth j (strike fuel size step pointer sieve) false = true <->
      nth j sieve false = true /\
      ~ (pointer <= Z.of_nat j /\ (step | Z.of_nat j - pointer)).
Proof.
  assert (Hstop : forall size pointer (sieve : list bool) step j,
             length sieve = Z.to_nat size -> size <= pointer ->
             nth j sieve false = true <->
             nth j sieve false = true /\
             ~ (pointer <= Z.of_nat j /\ (step | Z.of_nat j - pointer))).
  { intros size pointer sieve step j Hlen Hge. split; [|tauto].
    intros H. split; [assumption|].
    apply nth_true_lt in H. lia. }
  induction fuel as [|fuel IH]; intros size step pointer sieve Hs Hp Hlen Hf.
  - cbn [strike]. split; [reflexivity|]. intros j.
    apply (Hstop size); [assumption|lia].
  - cbn [strike]. destruct (Z.ltb_spec pointer size) as [Hlt|Hge].
    + assert (Hpl : (Z.to_nat pointer < length sieve)%nat) by lia.
      pose proof (set_false_length sieve _ Hpl) as Hl'.
      destruct (IH size step (pointer + step)
                   (firstn (Z.to_nat pointer) sieve ++ false ::
                    skipn (S (Z.to_nat pointer)) sieve))
        as [IHlen IHnth]; [lia|lia|lia|lia|].
      split; [lia|]. intros j. rewrite IHnth, set_false_nth by assumption.
      destruct (Nat.eqb_spec j (Z.to_nat pointer)) as [->|Hne].
      * split; [intros [? _]; discriminate|].
        intros [_ H]. exfalso. apply H. split; [lia|].
        exists 0. lia.
      * assert (Hne' : Z.of_nat j <> pointer) by lia.
        split; intros [Hn H]; (split; [assumption|]); intros [Hle [c Hc]];
          apply H.
        -- assert (0 < c) by (apply (Z.mul_pos_cancel_r c step); lia).
           assert (0 <= (c - 1) * step) by (apply Z.mul_nonneg_nonneg; lia).
           split; [lia|]. exists (c - 1). lia.
        -- split; [lia|]. exists (c + 1). lia.
    + split; [reflexivity|]. intros j. now apply (Hstop size).
Qed.

Lemma sieve_fold_spec : forall count start size sieve,
    2 <= start -> 0 <= size ->
    length sieve = Z.to_nat size ->
    length (fold_left
              (fun sieve i => strike (Z.to_nat size) size i (i * 2) sieve)
              (iota count start 1) sieve) = length sieve /\
    forall j,
      nth j (fold_left
               (fun sieve i => strike (Z.to_nat size) size i (i * 2) sieve)
               (iota count start 1) sieve) false = true <->
      nth j sieve false = true /\
      forall i, start <= i < start + Z.of_nat count ->
                ~ (i * 2 <= Z.of_nat j /\ (i | Z.of_nat j - i * 2)).
Proof.
  induction count as [|count IH]; intros start size sieve Hs Hsize Hlen.
  - cbn [iota fold_left]. split; [reflexivity|]. intros j.
    split; [|tauto]. intros H. split; [assumption|]. intros i Hi. lia.
  - cbn [iota fold_left].
    destruct (strike_spec (Z.to_nat size) size start (start * 2) sieve)
      as [Hl1 Hn1]; [lia|lia|assumption|nia|].
    destruct (IH (start + 1) size
                 (strike (Z.to_nat size) size start (start * 2) sieve))
      as [Hl2 Hn2]; [lia|lia|lia|].
    split; [lia|]. intros j. rewrite Hn2, Hn1. split.
    + intros [[Hn Hstart] Hrest]. split; [assumption|]. intros i Hi.
      destruct (Z.eq_dec i start) as [->|]; [assumption|].
      apply Hrest. lia.
    + intros [Hn Hall]. split; [split; [assumption|]|].
      * apply Hall. lia.
      * intros i Hi. apply Hall. lia.
Qed.

Lemma sieve_unmarked_prime : forall size p,
    2 <= p < size ->
    (forall i, 2 <= i < 2 + Z.of_nat (Z.to_nat (Z.sqrt size + 1 - 2)) ->
               ~ (i * 2 <= p /\ (i | p - i * 2))) <->
    Z.prime p.
Proof.
  intros size p Hp.
  assert (Hsq : 1 <= Z.sqrt size)
    by (apply Z.sqrt_le_square; lia).
  split.
  - intros H. split; [lia|]. intros x Hx [y Hy].
    assert (Hy1 : 1 < y) by nia.
    assert (Hsmall : forall i m, 1 < i -> i <= m -> p = m * i -> False).
    { intros i m Hi Him Hprod.
      assert (i <= Z.sqrt size)
        by (apply Z.sqrt_le_square; [lia|lia|]; nia).
      apply (H i); [lia|]. split; [nia|].
      exists (m - 2). lia. }
    destruct (Z_le_gt_dec x y).
    + apply (Hsmall x y); lia.
    + apply (Hsmall y x); lia.
  - intros [_ Hprime] i Hi [Hle [c Hc]].
    apply (Hprime i); [lia|]. exists (c + 2). lia.
Qed.

Lemma prime_sieve_spec : forall size p,
    2 <= size ->
    In p (prime_sieve size) <-> 0 <= p < size /\ Z.prime p.
Proof.
  intros size p Hsize. unfold prime_sieve, isqrt. cbv zeta.
  rewrite filter_In, in_range2.
  set (sieve0 := false :: false :: repeat true (Z.to_nat size - 2)).
  assert (Hlen0 : length sieve0 = Z.to_nat size)
    by (subst sieve0; cbn [length]; rewrite repeat_length; lia).
  destruct (sieve_fold_spec (Z.to_nat (Z.sqrt size + 1 - 2)) 2 size sieve0)
    as [_ Hnth]; [lia|lia|assumption|].
  unfold range2. rewrite Hnth.
  split.
  - intros [Hr [H0 Hall]]. split; [assumption|].
    assert (H2 : 2 <= p).
    { destruct (Z.to_nat p) as [|[|j]] eqn:Hj; try discriminate. lia. }
    apply (sieve_unmarked_prime size p); [lia|].
    intros i Hi. specialize (Hall i Hi). rewrite Z2Nat.id in Hall by lia.
    exact Hall.
  - intros [Hr Hprime]. pose proof (Z.prime_ge_2 _ Hprime) as H2.
    split; [assumption|]. split.
    + subst sieve0.
      replace (Z.to_nat p) with (S (S (Z.to_nat p - 2))) by lia.
      cbn [nth]. apply nth_repeat_lt. lia.
    + intros i Hi. rewrite Z2Nat.id by lia.
      now apply (sieve_unmarked_prime size p).
Qed.

Lemma FIRST_FEW_PRIMES_spec : forall p,
    In p FIRST_FEW_PRIMES <-> 0 <= p < 1000 /\ Z.prime p.
Proof.
  intros p. rewrite FIRST_FEW_PRIMES_sieve. apply prime_sieve_spec. lia.
Qed.

(** ** The probabilistic test *)

Lemma split_even_inv : forall fuel d r d' r',
    split_even fuel d r = Ok (d', r') -> 0 < d ->
    d = d' * 2 ^ (r' - r) /\ 0 < d' /\ r <= r' /\ (d mod 2 = 0 -> r < r').
Proof.
  induction fuel as [|fuel IH]; intros d r d' r' H Hd; [discriminate|].
  cbn [split_even] in H.
  pose proof (Z.div_mod d 2 ltac:(lia)) as Hdm.
  pose proof (Z.mod_pos_bound d 2 ltac:(lia)) as Hb.
  destruct (Z.eqb_spec (d mod 2) 0) as [He|He].
  - apply IH in H; [|lia]. destruct H as (Hf & Hd' & Hr & _).
    split; [|split; [assumption|split; lia]].
    replace (r' - r) with (Z.succ (r' - (r + 1))) by lia.
    rewrite Z.pow_succ_r by lia. lia.
  - inversion H; subst. rewrite Z.sub_diag, Z.pow_0_r.
    repeat split; lia.
Qed.

Lemma split_even_total : forall fuel d r,
    d <> 0 -> Z.abs d < 2 ^ Z.of_nat fuel ->
    exists d' r', split_even fuel d r = Ok (d', r').
Proof.
  induction fuel as [|fuel IH]; intros d r Hd Hf.
  - change (Z.of_nat 0) with 0 in Hf. rewrite Z.pow_0_r in Hf. lia.
  - cbn [split_even]. rewrite Nat2Z.inj_succ, Z.pow_succ_r in Hf by lia.
    pose proof (Z.div_mod d 2 ltac:(lia)) as Hdm.
    destruct (Z.eqb_spec (d mod 2) 0) as [He|He]; [|eauto].
    apply IH; lia.
Qed.

Lemma split_even_zero : forall fuel r,
    split_even fuel 0 r = NoResult OutOfFuel.
Proof.
  induction fuel as [|fuel IH]; intros r; [reflexivity|].
  cbn [split_even]. change (0 mod 2 =? 0) with true. cbv iota.
  change (0 / 2) with 0. apply IH.
Qed.

Section RabinMillerSound.

Variable n : Z.
Hypothesis n_prime : Z.prime n.

Lemma witness_loop_prime_inv : forall fuel r x i b steps,
    witness_loop fuel n r x i = Ok b ->
    (1 <= steps)%nat ->
    0 <= x < n -> x <> 1 ->
    (x ^ (2 ^ Z.of_nat steps)) mod n = 1 ->
    i + Z.of_nat steps = r ->
    b = true.
Proof.
  pose proof (Z.prime_ge_2 _ n_prime) as Hn.
  induction fuel as [|fuel IH]; intros r x i b steps H Hs Hx Hx1 Hpow Hi;
    [discriminate|].
  cbn [witness_loop] in H.
  destruct (Z.eqb_spec x (n - 1)) as [|Hne]; [now inversion H|].
  assert (Hsq : (x ^ 2) mod n <> 1)
    by (intro Hsq; destruct (sqrt_of_one n n_prime x Hx Hsq); contradiction).
  destruct steps as [|steps]; [lia|].
  rewrite Nat2Z.inj_succ, Z.pow_succ_r, Z.pow_mul_r in Hpow by lia.
  destruct (Z.eqb_spec i (r - 1)) as [Hir|Hir].
  - assert (steps = 0%nat) by lia. subst steps.
    change (Z.of_nat 0) with 0 in Hpow.
    rewrite Z.pow_0_r, Z.pow_1_r in Hpow. contradiction.
  - apply (IH r ((x ^ 2) mod n) (i + 1) b steps); try lia.
    + exact H.
    + apply Z.mod_pos_bound. lia.
    + now rewrite Z.mod_pow_l.
Qed.

Variables d r : Z.
Hypothesis n_split : n - 1 = d * 2 ^ r.
Hypothesis d_pos : 0 < d.
Hypothesis r_pos : 1 <= r.
Hypothesis n_ge_5 : 5 <= n.

Lemma attempts_prime_inv : forall fuel k t b t',
    attempts fuel n d r k t = Ok (b, t') -> b = true.
Proof.
  intros fuel. induction k as [|k IH]; intros t b t' H.
  - now inversion H.
  - cbn [attempts] in H.
    apply mbind_inv in H. destruct H as (a & t1 & Ha & H).
    apply randrange_inv in Ha. destruct Ha as [Ha _].
    apply mbind_inv in H. destruct H as (x & t2 & Hx & H).
    apply lift_inv in Hx. destruct Hx as [Hx ->].
    rewrite pow3_ok in Hx by lia. inversion Hx as [Hxv]. clear Hx.
    destruct (Z.eqb_spec x 1) as [|Hx1]; cbn [negb] in H.
    + eapply IH; eassumption.
    + apply mbind_inv in H. destruct H as (passed & t3 & Hw & H).
      apply lift_inv in Hw. destruct Hw as [Hw ->].
      assert (passed = true).
      { apply (witness_loop_prime_inv fuel r x 0 passed (Z.to_nat r));
          try assumption; try lia.
        - subst x. apply Z.mod_pos_bound. lia.
        - subst x. rewrite Z2Nat.id by lia.
          rewrite Z.mod_pow_l, <- Z.pow_mul_r, <- n_split by lia.
          apply Z.fermat_nz; [assumption|].
          rewrite Z.mod_small; lia. }
      subst passed. eapply IH; eassumption.
Qed.

End RabinMillerSound.

Lemma rabin_miller_prime_inv : forall fuel n k t b t',
    rabin_miller fuel n k t = Ok (b, t') ->
    Z.prime n -> 5 <= n -> b = true.
Proof.
  intros fuel n k t b t' H Hp Hn. unfold rabin_miller in H.
  apply mbind_inv in H. destruct H as ([d r] & t1 & Hs & H).
  apply lift_inv in Hs. destruct Hs as [Hs ->].
  apply split_even_inv in Hs; [|lia].
  destruct Hs as (Hd & Hd' & Hr & Hev). rewrite Z.sub_0_r in Hd.
  specialize (Hev (prime_odd n Hp Hn)). cbn [fst snd] in H.
  eapply (attempts_prime_inv n Hp d r); try eassumption; lia.
Qed.

Lemma prime_not_in_table : forall n,
    Z.prime n ->
    existsb (Z.eqb n) FIRST_FEW_PRIMES = false ->
    1000 <= n /\
    existsb (fun prime => n mod prime =? 0) FIRST_FEW_PRIMES = false.
Proof.
  intros n Hp Hnot.
  assert (Hnin : ~ In n FIRST_FEW_PRIMES).
  { intro Hin. apply not_true_iff_false in Hnot. apply Hnot.
    apply existsb_exists. exists n. split; [assumption|apply Z.eqb_refl]. }
  pose proof (Z.prime_ge_2 _ Hp).
  split.
  - destruct (Z_lt_le_dec n 1000); [|assumption].
    exfalso. apply Hnin. apply FIRST_FEW_PRIMES_spec. split; [lia|assumption].
  - apply not_true_iff_false. intro Hex.
    apply existsb_exists in Hex. destruct Hex as (p & Hin & Hdiv).
    apply Hnin. apply Z.eqb_eq in Hdiv.
    pose proof Hin as Hin'. apply FIRST_FEW_PRIMES_spec in Hin'.
    destruct Hin' as [_ Hpp]. pose proof (Z.prime_ge_2 _ Hpp).
    assert (p = n).
    { apply Z.divide_prime_prime; try assumption.
      apply Z.mod_divide; [lia|assumption]. }
    now subst p.
Qed.

Lemma is_prime_ok_on_prime : forall fuel n t b t',
    is_prime fuel n t = Ok (b, t') -> Z.prime n -> b = true.
Proof.
  intros fuel n t b t' H Hp. unfold is_prime in H.
  pose proof (Z.prime_ge_2 _ Hp).
  destruct (Z.ltb_spec n 2); [lia|].
  destruct (existsb (Z.eqb n) FIRST_FEW_PRIMES) eqn:Hin;
    [now inversion H|].
  destruct (prime_not_in_table n Hp Hin) as [Hbig Hdiv].
  rewrite Hdiv in H.
  eapply rabin_miller_prime_inv; [eassumption|assumption|lia].
Qed.

Section RabinMillerPrefix.

Variable n : Z.
Hypothesis n_prime : Z.prime n.
Variables d r : Z.
Hypothesis n_split : n - 1 = d * 2 ^ r.
Hypothesis d_pos : 0 < d.
Hypothesis r_pos : 1 <= r.
Hypothesis n_ge_5 : 5 <= n.

(** Only the [k] draws that are read need to be bases. *)
Lemma attempts_prime_prefix : forall fuel k t,
    r <= Z.of_nat fuel ->
    Forall (fun a => 2 <= a <= n - 2) (firstn k t) ->
    (k <= length t)%nat ->
    attempts fuel n d r k t = Ok (true, skipn k t).
Proof.
  intros fuel. induction k as [|k IH]; intros t Hf Ht Hk; [reflexivity|].
  destruct t as [|a t]; [simpl in Hk; lia|].
  cbn [firstn] in Ht. inversion Ht as [|? ? Ha Ht']; subst.
  cbn [attempts skipn].
  rewrite (mbind_ok _ _ _ _ _ a t) by (apply randrange_ok; lia).
  rewrite (mbind_ok _ _ _ _ _ ((a ^ d) mod n) t)
    by (apply lift_ok, pow3_ok; lia).
  simpl in Hk.
  destruct (Z.eqb_spec ((a ^ d) mod n) 1) as [|Hx1]; cbn [negb].
  - apply IH; [assumption|assumption|lia].
  - rewrite (mbind_ok _ _ _ _ _ true t).
    + apply IH; [assumption|assumption|lia].
    + apply lift_ok.
      apply (witness_loop_prime n n_prime (Z.to_nat r)); try lia.
      * apply Z.mod_pos_bound. lia.
      * rewrite Z2Nat.id by lia.
        rewrite Z.mod_pow_l, <- Z.pow_mul_r, <- n_split by lia.
        apply Z.fermat_nz; [assumption|].
        rewrite Z.mod_small; lia.
Qed.

End RabinMillerPrefix.

Lemma rabin_miller_prime_prefix : forall n k fuel t,
    Z.prime n -> 5 <= n ->
    Z.log2 n < Z.of_nat fuel ->
    Forall (fun a => 2 <= a <= n - 2) (firstn (Z.to_nat k) t) ->
    (Z.to_nat k <= length t)%nat ->
    rabin_miller fuel n k t = Ok (true, skipn (Z.to_nat k) t).
Proof.
  intros n k fuel t Hp Hn Hfuel Ht Hk. unfold rabin_miller.
  assert (Hpow : n < 2 ^ Z.of_nat fuel).
  { apply Z.lt_le_trans with (2 ^ Z.succ (Z.log2 n)).
    - apply Z.log2_spec. lia.
    - apply Z.pow_le_mono_r; lia. }
  destruct (split_even_spec fuel (n - 1) 0)
    as (d & r & Hs & Hd & Hd' & Hr & Hev); [lia|].
  rewrite Z.sub_0_r in Hd.
  specialize (Hev (prime_odd n Hp Hn)).
  rewrite (mbind_ok _ _ _ _ _ (d, r) t) by (now apply lift_ok).
  cbn [fst snd].
  apply attempts_prime_prefix; try assumption; try lia.
  assert (Hrf : 2 ^ r < 2 ^ Z.of_nat fuel) by nia.
  apply Z.pow_lt_mono_r_iff in Hrf; lia.
Qed.

Lemma is_prime_total_on_prime : forall n fuel t,
    Z.prime n ->
    (1000 <= n ->
     Z.log2 n < Z.of_nat fuel /\ (5 <= length t)%nat /\
     Forall (fun a => 2 <= a <= n - 2) (firstn 5 t)) ->
    is_prime fuel n t = Ok (true, if n <? 1000 then t else skipn 5 t).
Proof.
  intros n fuel t Hp Hbig. unfold is_prime.
  pose proof (Z.prime_ge_2 _ Hp).
  destruct (Z.ltb_spec n 2); [lia|].
  destruct (existsb (Z.eqb n) FIRST_FEW_PRIMES) eqn:Hin.
  - apply existsb_exists in Hin. destruct Hin as (p & Hin & Heq).
    apply Z.eqb_eq in Heq. subst p.
    apply FIRST_FEW_PRIMES_spec in Hin.
    destruct (Z.ltb_spec n 1000); [reflexivity|lia].
  - destruct (prime_not_in_table n Hp Hin) as [Hge ->].
    destruct (Z.ltb_spec n 1000); [lia|].
    destruct (Hbig Hge) as (Hfuel & Hlen & Ht).
    now apply (rabin_miller_prime_prefix n 5 fuel t); try lia.
Qed.

Lemma small_numbers_have_table_factor :
  forallb (fun i => existsb (fun prime => i mod prime =? 0) FIRST_FEW_PRIMES)
          (range2 2 1009) = true.
Proof. vm_compute. reflexivity. Qed.

Lemma is_prime_small_spec : forall fuel n t b t',
    is_prime fuel n t = Ok (b, t') ->
    n < 1009 * 1009 ->
    (b = true <-> Z.prime n).
Proof.
  intros fuel n t b t' H Hn. split;
    [|now apply (is_prime_ok_on_prime fuel n t b t')].
  intros ->. unfold is_prime in H.
  destruct (Z.ltb_spec n 2) as [|H2]; [discriminate|].
  destruct (existsb (Z.eqb n) FIRST_FEW_PRIMES) eqn:Hin.
  - apply existsb_exists in Hin. destruct Hin as (p & Hin & Heq).
    apply Z.eqb_eq in Heq. subst p.
    now apply FIRST_FEW_PRIMES_spec in Hin.
  - destruct (existsb (fun prime => n mod prime =? 0) FIRST_FEW_PRIMES)
      eqn:Hdiv; [discriminate|].
    split; [lia|]. intros x Hx [y Hy].
    assert (Hy1 : 1 < y) by nia.
    assert (Hsmall : forall i, 1 < i -> i * i <= n -> (i | n) -> False).
    { intros i Hi Hii Hd.
      assert (Hi' : i < 1009) by nia.
      pose proof small_numbers_have_table_factor as Hall.
      rewrite forallb_forall in Hall.
      specialize (Hall i ltac:(apply in_range2; lia)).
      apply existsb_exists in Hall. destruct Hall as (p & Hp & Hpi).
      apply Z.eqb_eq in Hpi.
      pose proof Hp as Hp'. apply FIRST_FEW_PRIMES_spec in Hp'.
      destruct Hp' as [_ Hpp]. pose proof (Z.prime_ge_2 _ Hpp).
      apply not_true_iff_false in Hdiv. apply Hdiv.
      apply existsb_exists. exists p. split; [assumption|].
      apply Z.eqb_eq. apply Z.mod_divide; [lia|].
      apply Z.divide_trans with i; [|assumption].
      apply Z.mod_divide; [lia|assumption]. }
    destruct (Z_le_gt_dec x y).
    + apply (Hsmall x); [lia|nia|]. now exists y.
    + apply (Hsmall y); [lia|nia|]. exists x. lia.
Qed.

Lemma small_no_factor_prime : forall n,
    2 <= n < 1009 * 1009 ->
    existsb (fun prime => n mod prime =? 0) FIRST_FEW_PRIMES = false ->
    Z.prime n.
Proof.
  intros n Hn Hdiv. split; [lia|]. intros x Hx [y Hy].
  assert (Hy1 : 1 < y) by nia.
  assert (Hsmall : forall i, 1 < i -> i * i <= n -> (i | n) -> False).
  { intros i Hi Hii Hd.
    assert (Hi' : i < 1009) by nia.
    pose proof small_numbers_have_table_factor as Hall.
    rewrite forallb_forall in Hall.
    specialize (Hall i ltac:(apply in_range2; lia)).
    apply existsb_exists in Hall. destruct Hall as (p & Hp & Hpi).
    apply Z.eqb_eq in Hpi.
    pose proof Hp as Hp'. apply FIRST_FEW_PRIMES_spec in Hp'.
    destruct Hp' as [_ Hpp]. pose proof (Z.prime_ge_2 _ Hpp).
    apply not_true_iff_false in Hdiv. apply Hdiv.
    apply existsb_exists. exists p. split; [assumption|].
    apply Z.eqb_eq. apply Z.mod_divide; [lia|].
    apply Z.divide_trans with i; [|assumption].
    apply Z.mod_divide; [lia|assumption]. }
  destruct (Z_le_gt_dec x y).
  - apply (Hsmall x); [lia|nia|]. now exists y.
  - apply (Hsmall y); [lia|nia|]. exists x. lia.
Qed.

(** Below [1009 ^ 2] a number that is not prime is refused by the table
    and the trial divisions, before any draw and whatever the fuel. *)
Lemma is_prime_rejects_small_composite : forall fuel n t,
    n < 1009 * 1009 -> ~ Z.prime n ->
    is_prime fuel n t = Ok (false, t).
Proof.
  intros fuel n t Hn Hnp. unfold is_prime.
  destruct (Z.ltb_spec n 2); [reflexivity|].
  destruct (existsb (Z.eqb n) FIRST_FEW_PRIMES) eqn:Hin.
  - exfalso. apply Hnp.
    apply existsb_exists in Hin. destruct Hin as (p & Hin & Heq).
    apply Z.eqb_eq in Heq. subst p.
    now apply FIRST_FEW_PRIMES_spec in Hin.
  - destruct (existsb (fun prime => n mod prime =? 0) FIRST_FEW_PRIMES)
      eqn:Hdiv; [reflexivity|].
    exfalso. apply Hnp. apply small_no_factor_prime; [lia|assumption].
Qed.

Lemma even_mod_even : forall x n,
    0 < n -> n mod 2 = 0 -> x mod 2 = 0 -> (x mod n) mod 2 = 0.
Proof.
  intros x n Hn Hn2 Hx2.
  pose proof (Z.div_mod x n ltac:(lia)) as Hx.
  pose proof (Z.div_mod n 2 ltac:(lia)) as Hnd.
  pose proof (Z.div_mod x 2 ltac:(lia)) as Hxd.
  replace (x mod n) with (0 + (x / 2 - (n / 2) * (x / n)) * 2) by lia.
  now rewrite Z.mod_add.
Qed.

Lemma even_pow : forall a e, 1 <= e -> a mod 2 = 0 -> (a ^ e) mod 2 = 0.
Proof.
  intros a e He Ha.
  replace e with (Z.succ (e - 1)) by lia. rewrite Z.pow_succ_r by lia.
  rewrite <- Z.mul_mod_idemp_l, Ha by lia. reflexivity.
Qed.

Lemma witness_loop_even : forall fuel n x i,
    0 < n -> n mod 2 = 0 -> x mod 2 = 0 -> 0 <= i ->
    witness_loop fuel n 0 x i = NoResult OutOfFuel.
Proof.
  induction fuel as [|fuel IH]; intros n x i Hn Hn2 Hx Hi; [reflexivity|].
  cbn [witness_loop].
  pose proof (Z.div_mod n 2 ltac:(lia)) as Hnd.
  pose proof (Z.div_mod x 2 ltac:(lia)) as Hxd.
  destruct (Z.eqb_spec x (n - 1)); [lia|].
  destruct (Z.eqb_spec i (0 - 1)); [lia|].
  apply IH; try assumption; [|lia].
  apply even_mod_even; try assumption. apply even_pow; [lia|assumption].
Qed.

(** On an even [n], where [r] is [0], a round whose base is even never
    ends: [x] stays even, so it never becomes [n - 1], and the counter
    never equals [r - 1]. *)
Theorem rabin_miller_even_never_returns : forall n a k fuel t,
    4 <= n -> n mod 2 = 0 ->
    2 <= a <= n - 2 -> a mod 2 = 0 ->
    1 <= k ->
    rabin_miller fuel n k (a :: t) = NoResult OutOfFuel.
Proof.
  intros n a k fuel t Hn Hn2 Ha Ha2 Hk. unfold rabin_miller.
  destruct fuel as [|fuel]; [reflexivity|]. cbn [split_even].
  pose proof (Z.div_mod n 2 ltac:(lia)) as Hnd.
  replace ((n - 1) mod 2) with 1
    by (replace (n - 1) with (1 + (n / 2 - 1) * 2) by lia;
        now rewrite Z.mod_add).
  change (1 =? 0) with false. cbv iota.
  rewrite (mbind_ok _ _ _ _ _ (n - 1, 0) (a :: t)) by reflexivity.
  cbn [fst snd].
  destruct (Z.to_nat k) as [|k'] eqn:Hk'; [lia|]. cbn [attempts].
  rewrite (mbind_ok _ _ _ _ _ a t) by (apply randrange_ok; lia).
  rewrite (mbind_ok _ _ _ _ _ ((a ^ (n - 1)) mod n) t)
    by (apply lift_ok, pow3_ok; lia).
  assert (Hx : ((a ^ (n - 1)) mod n) mod 2 = 0)
    by (apply even_mod_even; try lia; apply even_pow; [lia|assumption]).
  destruct (Z.eqb_spec ((a ^ (n - 1)) mod n) 1) as [H1|_].
  - rewrite H1 in Hx. discriminate.
  - cbn [negb]. unfold mbind, lift.
    rewrite witness_loop_even by (assumption || lia). reflexivity.
Qed.

Lemma rabin_miller_even_never_returns_witness :
  rabin_miller 1000 4 5 [2] = NoResult OutOfFuel.
Proof.
  apply rabin_miller_even_never_returns; try lia; reflexivity.
Defined.

(** [rabin_miller] cannot be used below 4: on [1] the loop that halves
    [d = 0] never ends, and on every other [n <= 3] the range of the
    bases is empty, a [ValueError]. *)
Theorem rabin_miller_below_4 : forall n k fuel t,
    n <= 3 -> 1 <= k ->
    Z.abs (n - 1) < 2 ^ Z.of_nat fuel ->
    rabin_miller fuel n k t
    = if n =? 1 then NoResult OutOfFuel else Raise ValueError.
Proof.
  intros n k fuel t Hn Hk Hfuel. unfold rabin_miller.
  destruct (Z.eqb_spec n 1) as [->|Hn1].
  - change (1 - 1) with 0. unfold mbind, lift.
    now rewrite split_even_zero.
  - destruct (split_even_total fuel (n - 1) 0) as (d & r & Hs);
      [lia|assumption|].
    rewrite (mbind_ok _ _ _ _ _ (d, r) t) by (now apply lift_ok).
    destruct (Z.to_nat k) as [|k'] eqn:Hk'; [lia|]. cbn [attempts].
    unfold mbind at 1. unfold randrange.
    destruct (Z.leb_spec (n - 1) 2); [reflexivity|lia].
Qed.

Lemma rabin_miller_below_4_witness :
  rabin_miller 3 3 5 [2] = if 3 =? 1 then NoResult OutOfFuel else Raise ValueError.
Proof.
  apply rabin_miller_below_4; lia.
Defined.

(** ** The random searches *)

Lemma find_random_prime_accepted : forall loops fuel start stop t n t',
    find_random_prime loops fuel start stop t = Ok (n, t') ->
    start <= n < stop /\ exists t1, is_prime fuel n t1 = Ok (true, t').
Proof.
  induction loops as [|loops IH]; intros fuel start stop t n t' H;
    [discriminate|].
  cbn [find_random_prime] in H.
  apply mbind_inv in H. destruct H as (c & t1 & Hc & H).
  apply randrange_inv in Hc. destruct Hc as [Hc _].
  apply mbind_inv in H. destruct H as (b & t2 & Hb & H).
  destruct b.
  - inversion H; subst. split; [assumption|]. now exists t1.
  - eapply IH; eassumption.
Qed.

Lemma find_random_prime_spec : forall loops fuel start stop t n t',
    find_random_prime loops fuel start stop t = Ok (n, t') ->
    start <= n < stop /\ 2 <= n /\
    (stop <= 1009 * 1009 -> Z.prime n).
Proof.
  intros loops fuel start stop t n t' H.
  apply find_random_prime_accepted in H. destruct H as (Hr & t1 & Hp).
  split; [assumption|]. split.
  - eapply is_prime_true_ge_2; eassumption.
  - intros Hstop.
    apply (is_prime_small_spec fuel n t1 true t');
      [assumption|lia|reflexivity].
Qed.

(** A prime draw is never passed over: when the first draw is a prime of
    the range, [find_random_prime] returns it, at once below 1000 and
    after five rounds on the next five draws otherwise. *)
Theorem find_random_prime_takes_prime : forall loops fuel start stop p t,
    Z.prime p -> start <= p < stop ->
    (1000 <= p ->
     Z.log2 p < Z.of_nat fuel /\ (5 <= length t)%nat /\
     Forall (fun a => 2 <= a <= p - 2) (firstn 5 t)) ->
    find_random_prime (S loops) fuel start stop (p :: t)
    = Ok (p, if p <? 1000 then t else skipn 5 t).
Proof.
  intros loops fuel start stop p t Hp Hr Hbig.
  cbn [find_random_prime].
  rewrite (mbind_ok _ _ _ _ _ p t) by (now apply randrange_ok).
  rewrite (mbind_ok _ _ _ _ _ true (if p <? 1000 then t else skipn 5 t))
    by (now apply is_prime_total_on_prime).
  reflexivity.
Qed.

Lemma find_random_prime_takes_prime_witness :
  find_random_prime 1 12 1000 2000 [1009; 2; 3; 5; 7; 11; 0]
  = Ok (1009, if 1009 <? 1000 then [2; 3; 5; 7; 11; 0]
              else skipn 5 [2; 3; 5; 7; 11; 0]).
Proof.
  apply find_random_prime_takes_prime.
  - apply simple_is_prime_sound. vm_compute; reflexivity.
  - lia.
  - intros _. split; [simpl; lia|]. split; [simpl; lia|].
    repeat constructor; lia.
Defined.

Lemma fractions_gcd_pos : forall a b, 0 < b -> fractions_gcd a b = Z.gcd a b.
Proof.
  intros a b Hb. unfold fractions_gcd.
  destruct (Z.eqb_spec b 0); [lia|].
  destruct (Z.ltb_spec b 0); [lia|reflexivity].
Qed.

(** For [n > 0], [find_random_coprime] returns the first draw that is
    coprime to [n], and passes over the draws that are not. *)
Theorem find_random_coprime_first : forall l e t loops n start stop,
    0 < n ->
    Forall (fun c => start <= c < stop /\ Z.gcd c n <> 1) l ->
    start <= e < stop -> Z.gcd e n = 1 ->
    (length l < loops)%nat ->
    find_random_coprime loops n start stop (l ++ e :: t) = Ok (e, t).
Proof.
  induction l as [|c l IH]; intros e t loops n start stop Hn Hl He Hg Hloops;
    (destruct loops as [|loops]; [simpl in Hloops; lia|]);
    cbn [app find_random_coprime].
  - rewrite (mbind_ok _ _ _ _ _ e t) by (now apply randrange_ok).
    rewrite fractions_gcd_pos, Hg by assumption. reflexivity.
  - inversion Hl as [|? ? [Hc Hcg] Hl']; subst.
    rewrite (mbind_ok _ _ _ _ _ c (l ++ e :: t)) by (now apply randrange_ok).
    rewrite fractions_gcd_pos by assumption.
    destruct (Z.eqb_spec (Z.gcd c n) 1); [contradiction|].
    apply IH; try assumption. simpl in Hloops. lia.
Qed.

Lemma find_random_coprime_first_witness :
  find_random_coprime 3 12 2 20 ([3; 8] ++ 5 :: [7]) = Ok (5, [7]).
Proof.
  apply find_random_coprime_first.
  - lia.
  - repeat constructor; try lia; discriminate.
  - lia.
  - reflexivity.
  - simpl; lia.
Defined.

(** ** More on the modular inverse *)

Lemma inverse_unique : forall m d x y,
    1 < m -> Z.gcd m d = 1 ->
    0 <= x < m -> 0 <= y < m ->
    (d * x) mod m = 1 -> (d * y) mod m = 1 -> x = y.
Proof.
  intros m d x y Hm Hg Hx Hy Hdx Hdy.
  assert (Hd : (m | d * x - d * y))
    by (apply cong_divide; [lia|congruence]).
  rewrite <- Z.mul_sub_distr_l in Hd.
  apply Z.gauss in Hd; [|assumption].
  destruct Hd as [c Hc].
  assert (c = 0) by nia. lia.
Qed.

(** The inverse of the inverse is the value again, reduced modulo the
    modulus: [multinv(m, multinv(m, v)) == v % m]. *)
Theorem multinv_involution : forall mod_ val fuel,
    1 < mod_ -> 0 < val -> Z.gcd mod_ val = 1 ->
    val < Z.of_nat fuel -> mod_ < Z.of_nat fuel ->
    exists d,
      multinv fuel mod_ val = Ok d /\
      multinv fuel mod_ d = Ok (val mod mod_).
Proof.
  intros mod_ val fuel Hm Hv Hg Hf1 Hf2.
  destruct (multinv_pos_spec mod_ val Hv Hm Hg fuel) as (d & Hd & Hr & Hinv);
    [lia|].
  exists d. split; [assumption|].
  assert (Hd0 : 0 < d).
  { destruct (Z.eq_dec d 0) as [->|]; [|lia].
    rewrite Z.mul_0_r, Z.mod_0_l in Hinv by lia. discriminate. }
  assert (Hgd : Z.gcd mod_ d = 1).
  { apply Z.coprime_Bezout. exists (- (val * d / mod_)), val.
    pose proof (Z.div_mod (val * d) mod_ ltac:(lia)). lia. }
  destruct (multinv_pos_spec mod_ d Hd0 Hm Hgd fuel) as (x & Hx & Hxr & Hxinv);
    [lia|].
  rewrite Hx. f_equal.
  apply (inverse_unique mod_ d); try assumption.
  - apply Z.mod_pos_bound. lia.
  - rewrite Z.mul_mod_idemp_r, Z.mul_comm by lia. assumption.
Qed.

Lemma multinv_involution_witness :
  exists d, multinv 12 11 3 = Ok d /\ multinv 12 11 d = Ok (3 mod 11).
Proof.
  apply multinv_involution; try lia. reflexivity.
Defined.

(** ** More on the codec *)

Lemma rstrip_nul_last : forall s, last (rstrip_nul s) 1 <> 0.
Proof.
  induction s as [|c s IH]; [simpl; lia|].
  rewrite rstrip_nul_cons. destruct (rstrip_nul s) as [|x l].
  - destruct (Z.eqb_spec c 0); simpl; lia.
  - exact IH.
Qed.

Lemma rstrip_nul_idem : forall s, rstrip_nul (rstrip_nul s) = rstrip_nul s.
Proof. intros s. apply rstrip_nul_id, rstrip_nul_last. Qed.

Lemma rstrip_nul_length : forall s, (length (rstrip_nul s) <= length s)%nat.
Proof.
  induction s as [|c s IH]; [simpl; lia|].
  rewrite rstrip_nul_cons. destruct (rstrip_nul s) as [|x l].
  - destruct (c =? 0); simpl; lia.
  - simpl in *. lia.
Qed.

Lemma text2int_rstrip : forall m b, text2int (rstrip_nul m) b = text2int m b.
Proof. intros m b. unfold text2int. now rewrite rstrip_nul_idem. Qed.

(** The round trip is lossy exactly on trailing NULs: an ASCII message
    comes back without them, and appending NULs to a message does not
    change its blocks. *)
Theorem round_trip_strips_trailing_nul : forall m b,
    Forall is_ascii m -> 1 <= b ->
    (ints <- text2int m b ;; int2text ints b) = Ok (rstrip_nul m) /\
    forall z, text2int (m ++ repeat 0 z) b = text2int m b.
Proof.
  intros m b Hm Hb. split.
  - rewrite <- text2int_rstrip.
    destruct (int2text_text2int (rstrip_nul m) b) as (ints & -> & H);
      [now apply rstrip_nul_Forall|apply rstrip_nul_last|assumption|].
    exact H.
  - intros z. unfold text2int. now rewrite rstrip_nul_app_zeros.
Qed.

Lemma round_trip_strips_trailing_nul_witness :
  (ints <- text2int [97; 0; 98; 0; 0] 2 ;; int2text ints 2)
  = Ok (rstrip_nul [97; 0; 98; 0; 0]) /\
  forall z, text2int ([97; 0; 98; 0; 0] ++ repeat 0 z) 2
            = text2int [97; 0; 98; 0; 0] 2.
Proof.
  apply round_trip_strips_trailing_nul.
  - repeat constructor; unfold is_ascii; lia.
  - lia.
Defined.

(** Edge cases of [text2int]: a block size of [0] is a [ValueError] (the
    step of the range), a negative one silently gives no block at all,
    and a non-ASCII character left after stripping is a
    [UnicodeEncodeError] whatever the block size. *)
Theorem text2int_edge_cases : forall m b,
    (Forall is_ascii m -> b <= 0 ->
     text2int m b = if b =? 0 then Raise ValueError else Ok []) /\
    (forall c, In c (rstrip_nul m) -> ~ is_ascii c ->
               text2int m b = Raise UnicodeEncodeError).
Proof.
  intros m b. split.
  - intros Hm Hb. unfold text2int.
    rewrite encode_ascii_ok by (now apply rstrip_nul_Forall).
    cbn [bind]. unfold range3, range_len.
    destruct (Z.eqb_spec b 0); [reflexivity|].
    destruct (Z.ltb_spec 0 b); [lia|].
    destruct (Z.ltb_spec (len (rstrip_nul m)) 0) as [Hneg|];
      [unfold len in Hneg; lia|].
    reflexivity.
  - intros c Hin Hc. unfold text2int, encode_ascii.
    destruct (forallb _ (rstrip_nul m)) eqn:Hall; [|reflexivity].
    exfalso. apply Hc. rewrite forallb_forall in Hall.
    specialize (Hall c Hin). apply andb_prop in Hall.
    destruct Hall as [H0 H1]. apply Z.leb_le in H0. apply Z.ltb_lt in H1.
    unfold is_ascii. lia.
Qed.

Lemma text2int_edge_cases_witness :
  text2int [97; 98] (-3) = if -3 =? 0 then Raise ValueError else Ok [].
Proof.
  apply (proj1 (text2int_edge_cases [97; 98] (-3))).
  - repeat constructor; unfold is_ascii; lia.
  - lia.
Defined.

Lemma bytes_of_value : forall b v,
    0 <= v < 256 ^ Z.of_nat b ->
    exists l, length l = b /\ Forall is_byte l /\ le_value l = v.
Proof.
  induction b as [|b IH]; intros v Hv.
  - exists []. change (Z.of_nat 0) with 0 in Hv. rewrite Z.pow_0_r in Hv.
    repeat split; [constructor|simpl; lia].
  - rewrite Nat2Z.inj_succ, Z.pow_succ_r in Hv by lia.
    pose proof (Z.div_mod v 256 ltac:(lia)) as Hdm.
    pose proof (Z.mod_pos_bound v 256 ltac:(lia)) as Hmb.
    destruct (IH (v / 256)) as (l & Hlen & Hl & Hval); [lia|].
    exists (v mod 256 :: l). cbn [length le_value]. repeat split.
    + now rewrite Hlen.
    + constructor; [exact Hmb|assumption].
    + lia.
Qed.

Lemma int2text_fold : forall b ints init,
    1 <= b ->
    Forall (fun v => 0 <= v < 256 ^ b) ints ->
    exists s,
      foldM (fun text block_int =>
               block_msg <- block_text b block_int ;;
               Ok (text ++ block_msg)) ints init = Ok (init ++ s) /\
      len s = b * len ints /\ Forall is_byte s.
Proof.
  intros b ints. induction ints as [|v ints IH]; intros init Hb Hall.
  - exists []. rewrite app_nil_r. repeat split; [unfold len; simpl; lia|].
    constructor.
  - inversion Hall as [|? ? Hv Hall']; subst.
    destruct (bytes_of_value (Z.to_nat b) v) as (l & Hlen & Hl & Hval);
      [rewrite Z2Nat.id by lia; assumption|].
    cbn [foldM]. rewrite <- Hval.
    rewrite (block_text_window b Hb l Hl) by (unfold len; lia).
    rewrite Hlen, Nat.sub_diag. cbn [repeat bind]. rewrite app_nil_r.
    destruct (IH (init ++ l) Hb Hall') as (s & Hs & Hslen & Hsb).
    exists (l ++ s). rewrite Hs, app_assoc. repeat split.
    + unfold len in *. rewrite length_app. cbn [length]. lia.
    + apply Forall_app. split; assumption.
Qed.

(** [int2text] does not raise on blocks of [[0, 256 ^ b)]: it returns at
    most [b] characters per block, all below 256. *)
Theorem int2text_in_range : forall ints b,
    1 <= b ->
    Forall (fun v => 0 <= v < 256 ^ b) ints ->
    exists s,
      int2text ints b = Ok s /\
      len s <= b * len ints /\ Forall is_byte s.
Proof.
  intros ints b Hb Hall. unfold int2text.
  destruct (int2text_fold b ints [] Hb Hall) as (s & -> & Hlen & Hs).
  cbn [bind app]. eexists. split; [reflexivity|]. split.
  - pose proof (rstrip_nul_length s). unfold len in *. lia.
  - now apply rstrip_nul_Forall.
Qed.

Lemma int2text_in_range_witness :
  exists s,
    int2text [25185; 99] 2 = Ok s /\
    len s <= 2 * len [25185; 99] /\ Forall is_byte s.
Proof.
  apply int2text_in_range.
  - lia.
  - repeat constructor; lia.
Defined.

(** With a block size of [0] or less [int2text] returns the empty string
    for any blocks, where [text2int] raises or returns no block. *)
Theorem int2text_nonpositive_block_size : forall ints b,
    b <= 0 -> int2text ints b = Ok [].
Proof.
  intros ints b Hb. unfold int2text.
  assert (Hblock : forall v, block_text b v = Ok []).
  { intros v. unfold block_text, range3, range_len.
    change (-1 =? 0) with false. change (0 <? -1) with false. cbv iota.
    destruct (Z.ltb_spec (-1) (b - 1)); [lia|]. reflexivity. }
  assert (Hfold : forall init,
             foldM (fun text block_int =>
                      block_msg <- block_text b block_int ;;
                      Ok (text ++ block_msg)) ints init = Ok init).
  { induction ints as [|v ints IH]; intros init; [reflexivity|].
    cbn [foldM]. rewrite Hblock. cbn [bind]. rewrite app_nil_r. apply IH. }
  rewrite Hfold. reflexivity.
Qed.

Lemma int2text_nonpositive_block_size_witness :
  int2text [25185; 99] 0 = Ok [].
Proof.
  apply int2text_nonpositive_block_size. lia.
Defined.

(** ** More on the cipher *)

(** Every encrypted block lies in [[0, n)], and there is one per block of
    the message. *)
Theorem encrypt_blocks_below_modulus : forall m n e b,
    Forall is_ascii m -> 1 <= b -> 0 < n -> 0 <= e ->
    exists blocks c,
      text2int m b = Ok blocks /\
      encrypt m (n, e) b = Ok c /\
      length c = length blocks /\
      Forall (fun x => 0 <= x < n) c.
Proof.
  intros m n e b Hm Hb Hn He.
  pose proof (text2int_windows m b Hm Hb) as Hblocks.
  set (blocks := map (fun start => le_value (window b (rstrip_nul m) start)) (iota (Z.to_nat ((len (rstrip_nul m) + b - 1) / b)) 0 b)) in *.
  exists blocks, (map (fun block => (block ^ e) mod n) blocks).
  split; [assumption|]. unfold encrypt. rewrite Hblocks. cbn [bind].
  rewrite mapM_pow3 by lia. split; [reflexivity|].
  split; [apply length_map|].
  apply Forall_forall. intros x Hx. apply in_map_iff in Hx.
  destruct Hx as (v & <- & _). apply Z.mod_pos_bound. assumption.
Qed.

Lemma encrypt_blocks_below_modulus_witness :
  exists blocks c,
    text2int [97; 98; 99] 2 = Ok blocks /\
    encrypt [97; 98; 99] (3233, 17) 2 = Ok c /\
    length c = length blocks /\
    Forall (fun x => 0 <= x < 3233) c.
Proof.
  apply encrypt_blocks_below_modulus; try lia.
  repeat constructor; unfold is_ascii; lia.
Defined.

Lemma rsa_round_trip : forall p q e d m b,
    Z.prime p -> Z.prime q -> p <> q ->
    0 <= e -> 0 <= d -> (e * d) mod ((p - 1) * (q - 1)) = 1 ->
    Forall is_ascii m -> last m 1 <> 0 ->
    1 <= b -> 256 ^ b <= p * q ->
    (c <- encrypt m (p * q, e) b ;; decrypt c (p * q, d) b) = Ok m.
Proof.
  intros p q e d m b Hp Hq Hne He Hd Hed Hm Hlast Hb Hfit.
  pose proof (Z.prime_ge_2 _ Hp). pose proof (Z.prime_ge_2 _ Hq).
  assert (Hn : 0 < p * q) by nia.
  destruct (int2text_text2int m b Hm Hlast Hb) as (ints & Hints & Hback).
  pose proof (text2int_bounded m b ints Hm Hb Hints) as Hrange.
  unfold encrypt, decrypt. rewrite Hints. cbn [bind].
  rewrite mapM_pow3 by lia. cbn [bind].
  rewrite mapM_pow3 by lia. cbn [bind].
  rewrite map_map.
  replace (map (fun x => (((x ^ e) mod (p * q)) ^ d) mod (p * q)) ints)
    with ints; [exact Hback|].
  rewrite <- (map_id ints) at 1. apply map_ext_in.
  intros x Hx. rewrite Forall_forall in Hrange. specialize (Hrange x Hx).
  symmetry. apply rsa_inverse; try assumption; lia.
Qed.

(** ** More on key generation *)

Lemma draw_pq_range : forall loops fuel key_size p0 q0 t p q t',
    draw_pq loops fuel key_size p0 q0 t = Ok ((p, q), t') ->
    (p = p0 /\ q = q0 /\ p0 <> q0) \/
    (2 ^ (key_size - 1) <= p < 2 ^ key_size /\
     2 ^ (key_size - 1) <= q < 2 ^ key_size /\
     exists tp tp' tq,
       get_key_prime fuel key_size tp = Ok (p, tp') /\
       get_key_prime fuel key_size tp' = Ok (q, tq)).
Proof.
  induction loops as [|loops IH]; intros fuel key_size p0 q0 t p q t' H;
    [discriminate|].
  cbn [draw_pq] in H. destruct (Z.eqb_spec p0 q0) as [He|Hne].
  - apply mbind_inv in H. destruct H as (p1 & t1 & Hp1 & H).
    apply mbind_inv in H. destruct H as (q1 & t2 & Hq1 & H).
    pose proof (get_key_prime_inv _ _ _ _ _ Hp1) as [Hrp _].
    pose proof (get_key_prime_inv _ _ _ _ _ Hq1) as [Hrq _].
    apply IH in H. destruct H as [(-> & -> & _)|H]; right; [|assumption].
    split; [assumption|]. split; [assumption|]. eauto.
  - inversion H; subst. left. auto.
Qed.

Lemma generate_key_pair_parts : forall fuel key_size ude t pub priv t',
    generate_key_pair fuel key_size ude t = Ok ((pub, priv), t') ->
    exists p q e d t1,
      draw_pq fuel fuel key_size 0 0 t = Ok ((p, q), t1) /\
      pub = (p * q, e) /\ priv = (p * q, d) /\
      p <> q /\ 2 <= p /\ 2 <= q /\
      2 ^ (key_size - 1) <= p < 2 ^ key_size /\
      2 ^ (key_size - 1) <= q < 2 ^ key_size /\
      multinv fuel ((p - 1) * (q - 1)) e = Ok d /\
      (if ude then e = 65537
       else 65537 <= e < 2 ^ key_size /\ Z.gcd e ((p - 1) * (q - 1)) = 1).
Proof.
  intros fuel key_size ude t pub priv t' H. unfold generate_key_pair in H.
  apply mbind_inv in H. destruct H as ([p q] & t1 & Hpq & H).
  cbn [fst snd] in H. unfold derive_keys in H.
  apply mbind_inv in H. destruct H as (e & t2 & He & H).
  apply mbind_inv in H. destruct H as (d & t3 & Hd & H).
  apply lift_inv in Hd. destruct Hd as [Hd _].
  inversion H; subst.
  exists p, q, e, d, t1.
  pose proof (draw_pq_inv _ _ _ _ _ _ _ _ _ Hpq) as [Hne Hr].
  pose proof (draw_pq_range _ _ _ _ _ _ _ _ _ Hpq) as [(_ & _ & Hc)|Hrange];
    [contradiction|].
  destruct Hrange as (Hrp & Hrq & _).
  assert (H2 : 2 <= p /\ 2 <= q) by lia.
  repeat (split; [first [assumption | reflexivity | lia]|]).
  destruct ude.
  - now inversion He.
  - unfold get_key_coprime in He. destruct (key_size <? 0); [discriminate|].
    apply find_random_coprime_inv in He. destruct He as [Hr' Hg].
    unfold DEFAULT_EXP in Hr'. split; [assumption|].
    rewrite fractions_gcd_pos in Hg by nia. assumption.
Qed.

(** A prime returned by [get_key_prime(size)] has exactly [size] bits,
    [size] being at least 2, and up to 19 bits it is a true prime. *)
Theorem get_key_prime_bits : forall fuel size t n t',
    get_key_prime fuel size t = Ok (n, t') ->
    2 <= size /\ bit_size n = size /\ (size <= 19 -> Z.prime n).
Proof.
  intros fuel size t n t' H.
  pose proof (get_key_prime_inv _ _ _ _ _ H) as [Hr H2].
  unfold get_key_prime in H.
  destruct (Z.ltb_spec size 1) as [|Hs]; [discriminate|].
  assert (Hsize : 2 <= size).
  { destruct (Z.eq_dec size 1) as [->|]; [|lia].
    change (2 ^ 1) with 2 in Hr. lia. }
  split; [assumption|]. split.
  - unfold bit_size. rewrite (Z.log2_unique n (size - 1)); [lia|lia|].
    replace (Z.succ (size - 1)) with size by lia. assumption.
  - intros Hle. apply find_random_prime_spec in H.
    destruct H as (_ & _ & Hprime). apply Hprime.
    apply Z.le_trans with (2 ^ 19); [|vm_compute; discriminate].
    apply Z.pow_le_mono_r; lia.
Qed.

Lemma get_key_prime_bits_witness :
  2 <= 4 /\ bit_size 13 = 4 /\ (4 <= 19 -> Z.prime 13).
Proof.
  apply (get_key_prime_bits 5 4 [9; 15; 13; 11] 13 [11]).
  vm_compute; reflexivity.
Defined.

(** The keys of a pair share the modulus [n], which has [2 * key_size - 1]
    or [2 * key_size] bits; the public exponent is [65537] by default. *)
Theorem generate_key_pair_shape : forall fuel key_size ude t pub priv t',
    generate_key_pair fuel key_size ude t = Ok ((pub, priv), t') ->
    fst priv = fst pub /\
    2 * key_size - 1 <= bit_size (fst pub) <= 2 * key_size /\
    (ude = true -> snd pub = 65537).
Proof.
  intros fuel key_size ude t pub priv t' H.
  destruct (generate_key_pair_parts _ _ _ _ _ _ _ H)
    as (p & q & e & d & t1 & _ & -> & -> & _ & Hp & Hq & Hrp & Hrq & _ & He).
  cbn [fst snd]. split; [reflexivity|].
  assert (Hk : 1 <= key_size).
  { destruct (Z_lt_le_dec key_size 1) as [Hlt|]; [|assumption].
    pose proof (Z.pow_le_mono_r 2 key_size 0 ltac:(lia) ltac:(lia)) as Hpow.
    rewrite Z.pow_0_r in Hpow. lia. }
  assert (Hlo : 2 ^ (2 * key_size - 2) <= p * q).
  { replace (2 * key_size - 2) with ((key_size - 1) + (key_size - 1)) by lia.
    rewrite Z.pow_add_r by lia.
    apply Z.mul_le_mono_nonneg; try lia; apply Z.pow_nonneg; lia. }
  assert (Hhi : p * q < 2 ^ (2 * key_size)).
  { replace (2 * key_size) with (key_size + key_size) by lia.
    rewrite Z.pow_add_r by lia.
    apply Z.mul_lt_mono_nonneg; lia. }
  assert (Hn : 0 < p * q) by nia.
  unfold bit_size. split; [split|].
  - apply Z.log2_le_pow2 in Hlo; lia.
  - apply Z.log2_lt_pow2 in Hhi; lia.
  - intros ->. exact He.
Qed.

Lemma generate_key_pair_shape_witness :
  fst (143, 113) = fst (143, 65537) /\
  2 * 4 - 1 <= bit_size (fst (143, 65537)) <= 2 * 4 /\
  (true = true -> snd (143, 65537) = 65537).
Proof.
  apply (generate_key_pair_shape 40 4 true [11; 13] (143, 65537) (143, 113) []).
  vm_compute; reflexivity.
Defined.

Lemma generate_key_pair_valid_witness :
  exists p q t1,
    draw_pq 40 40 4 0 0 [11; 13] = Ok ((p, q), t1) /\
    p <> q /\ fst (143, 65537) = p * q /\ fst (143, 113) = p * q /\
    (Z.gcd (snd (143, 65537)) ((p - 1) * (q - 1)) = 1 ->
     0 <= snd (143, 113) < (p - 1) * (q - 1) /\
     (snd (143, 65537) * snd (143, 113)) mod ((p - 1) * (q - 1)) = 1).
Proof.
  apply (generate_key_pair_valid 40 4 true [11; 13] (143, 65537) (143, 113) []).
  vm_compute; reflexivity.
Defined.

(** With a random exponent, key sizes up to 16 bits never work: the range
    [[65537, 2 ^ key_size)] of the exponent is empty, a [ValueError] once
    the primes are drawn. *)
Theorem generate_key_pair_random_exponent_small : forall fuel key_size t pq t1,
    draw_pq fuel fuel key_size 0 0 t = Ok (pq, t1) ->
    key_size <= 16 ->
    generate_key_pair fuel key_size false t = Raise ValueError.
Proof.
  intros fuel key_size t pq t1 Hpq Hk. unfold generate_key_pair.
  rewrite (mbind_ok _ _ _ _ _ pq t1) by assumption.
  unfold derive_keys, get_key_coprime.
  destruct (key_size <? 0); [reflexivity|].
  destruct fuel as [|fuel]; [discriminate|].
  cbn [find_random_coprime]. unfold mbind, randrange, DEFAULT_EXP.
  assert (2 ^ key_size <= 2 ^ 16) by (apply Z.pow_le_mono_r; lia).
  change (2 ^ 16) with 65536 in *.
  destruct (Z.leb_spec (2 ^ key_size) 65537); [reflexivity|lia].
Qed.

Lemma generate_key_pair_random_exponent_small_witness :
  generate_key_pair 40 4 false [11; 13] = Raise ValueError.
Proof.
  apply (generate_key_pair_random_exponent_small 40 4 [11; 13] (11, 13) []).
  - vm_compute; reflexivity.
  - lia.
Defined.

(** With a random exponent the key pair is always valid: the exponent lies
    in [[65537, 2 ^ key_size)], it is coprime to [(p-1)*(q-1)], and the
    private exponent is its inverse in [[0, (p-1)*(q-1))]. *)
Theorem generate_key_pair_random_exponent_valid :
  forall fuel key_size t pub priv t',
    generate_key_pair fuel key_size false t = Ok ((pub, priv), t') ->
    exists p q t1,
      draw_pq fuel fuel key_size 0 0 t = Ok ((p, q), t1) /\
      p <> q /\ fst pub = p * q /\ fst priv = p * q /\
      65537 <= snd pub < 2 ^ key_size /\
      Z.gcd (snd pub) ((p - 1) * (q - 1)) = 1 /\
      0 <= snd priv < (p - 1) * (q - 1) /\
      (snd pub * snd priv) mod ((p - 1) * (q - 1)) = 1.
Proof.
  intros fuel key_size t pub priv t' H.
  destruct (generate_key_pair_parts _ _ _ _ _ _ _ H)
    as (p & q & e & d & t1 & Hpq & -> & -> & Hne & Hp & Hq & _ & _ & Hd
        & He & Hg).
  exists p, q, t1. cbn [fst snd].
  split; [assumption|]. split; [assumption|].
  split; [reflexivity|]. split; [reflexivity|].
  split; [assumption|]. split; [assumption|].
  rewrite Z.gcd_comm in Hg.
  apply (multinv_ok_inverse _ _ _ _ Hd); [nia|lia|assumption].
Qed.

Lemma generate_key_pair_random_exponent_valid_witness :
  exists p q t1,
    draw_pq 40 40 17 0 0
            [65537; 2; 3; 5; 7; 11; 65539; 2; 3; 5; 7; 11; 65538; 65537]
    = Ok ((p, q), t1) /\
    p <> q /\
    fst (4295229443, 65537) = p * q /\ fst (4295229443, 65537) = p * q /\
    65537 <= snd (4295229443, 65537) < 2 ^ 17 /\
    Z.gcd (snd (4295229443, 65537)) ((p - 1) * (q - 1)) = 1 /\
    0 <= snd (4295229443, 65537) < (p - 1) * (q - 1) /\
    (snd (4295229443, 65537) * snd (4295229443, 65537))
      mod ((p - 1) * (q - 1)) = 1.
Proof.
  apply (generate_key_pair_random_exponent_valid
           40 17 [65537; 2; 3; 5; 7; 11; 65539; 2; 3; 5; 7; 11; 65538; 65537]
           (4295229443, 65537) (4295229443, 65537) []).
  vm_compute; reflexivity.
Defined.

(** ** The cipher of dcrypt.py with generated keys *)

(** For a key pair of dcrypt.py built on two primes with an exponent
    coprime to [(p-1)*(q-1)], the check that [encrypt] makes,
    [key_size > block_size * 8], is enough: the blocks fit the modulus and
    [decrypt(encrypt(m, pub, b), priv, b) == m] for every ASCII message
    without trailing NUL. *)
Theorem dcrypt_encrypt_decrypt_inverse :
  forall fuel key_size ude t p q t1 pub priv t2 m b,
    draw_pq fuel fuel key_size 0 0 t = Ok ((p, q), t1) ->
    Dcrypt.generate_key_pair fuel key_size ude t = Ok ((pub, priv), t2) ->
    Z.prime p -> Z.prime q ->
    Z.gcd (snd (fst pub)) ((p - 1) * (q - 1)) = 1 ->
    Forall is_ascii m -> last m 1 <> 0 ->
    1 <= b -> b * 8 < key_size ->
    (c <- Dcrypt.encrypt m pub b ;; Dcrypt.decrypt c priv b) = Ok m.
Proof.
  intros fuel key_size ude t p q t1 pub priv t2 m b
         Hdraw Hgen Hp Hq Hg Hm Hlast Hb Hbits.
  unfold Dcrypt.generate_key_pair in Hgen.
  apply mbind_inv in Hgen.
  destruct Hgen as ([[n e] [n' d]] & t3 & Hgen & Hret).
  inversion Hret; subst pub priv t2. clear Hret. cbn [fst snd] in Hg.
  destruct (generate_key_pair_parts _ _ _ _ _ _ _ Hgen)
    as (p' & q' & e' & d' & t1' & Hpq & He & Hd & Hne & Hp2 & Hq2
        & Hrp & Hrq & Hinv & _).
  rewrite Hdraw in Hpq. inversion Hpq; subst p' q' t1'. clear Hpq.
  inversion He; subst n e'. inversion Hd; subst n' d'. clear He Hd.
  rewrite Z.gcd_comm in Hg.
  assert (Hepos : 0 < e).
  { destruct (generate_key_pair_inv _ _ _ _ _ _ _ Hgen)
      as (? & ? & e2 & ? & ? & _ & He2 & _ & _ & _ & _ & Hr2 & _).
    inversion He2; subst. lia. }
  destruct (multinv_ok_inverse _ _ _ _ Hinv) as [Hr Hed];
    [nia|assumption|assumption|].
  assert (Hfit : 256 ^ b <= p * q).
  { change 256 with (2 ^ 8). rewrite <- Z.pow_mul_r by lia.
    apply Z.le_trans with (2 ^ (key_size - 1) * 2 ^ (key_size - 1)).
    - rewrite <- Z.pow_add_r by lia. apply Z.pow_le_mono_r; lia.
    - apply Z.mul_le_mono_nonneg; try lia; apply Z.pow_nonneg; lia. }
  unfold Dcrypt.encrypt, Dcrypt.decrypt, Dcrypt.text2int, Dcrypt.int2text.
  destruct (Z.leb_spec key_size (b * 8)); [lia|].
  apply (rsa_round_trip p q e d m b); try assumption; lia.
Qed.

Lemma dcrypt_encrypt_decrypt_inverse_witness :
  (c <- Dcrypt.encrypt [97; 98] (274916705369, 65537, 20) 2 ;;
   Dcrypt.decrypt c (274916705369, 33843775553, 20) 2) = Ok [97; 98].
Proof.
  apply (dcrypt_encrypt_decrypt_inverse
           40 20 true [524309; 2; 3; 5; 7; 11; 524341; 2; 3; 5; 7; 11]
           524309 524341 [] (274916705369, 65537, 20)
           (274916705369, 33843775553, 20) []).
  - vm_compute; reflexivity.
  - vm_compute; reflexivity.
  - apply simple_is_prime_sound; vm_compute; reflexivity.
  - apply simple_is_prime_sound; vm_compute; reflexivity.
  - vm_compute; reflexivity.
  - repeat constructor; unfold is_ascii; lia.
  - simpl; lia.
  - lia.
  - lia.
Defined.

(** ** Statements of the properties above *)



(** [is_prime] never answers [False] on a prime, whatever the draws. *)
Theorem is_prime_never_rejects_prime : forall fuel n t b t',
    is_prime fuel n t = Ok (b, t') -> Z.prime n -> b = true.
Proof.
  intros. eapply is_prime_ok_on_prime; eassumption.
Qed.

Lemma is_prime_never_rejects_prime_witness : true = true.
Proof.
  apply (is_prime_never_rejects_prime 12 1009 [2; 3; 5; 7; 11] true []).
  - vm_compute; reflexivity.
  - apply simple_is_prime_sound. vm_compute; reflexivity.
Defined.

(** [is_prime] answers [True] on every prime: from the table below 1000,
    for any fuel and tape, and after five rounds of Miller-Rabin above,
    whatever bases of [[2, n-2]] the five draws are. *)
Theorem is_prime_accepts_primes : forall n fuel t,
    Z.prime n ->
    (1000 <= n ->
     Z.log2 n < Z.of_nat fuel /\ (5 <= length t)%nat /\
     Forall (fun a => 2 <= a <= n - 2) (firstn 5 t)) ->
    is_prime fuel n t = Ok (true, if n <? 1000 then t else skipn 5 t).
Proof.
  intros n fuel t Hp Hbig. now apply is_prime_total_on_prime.
Qed.

Lemma is_prime_accepts_primes_witness :
  is_prime 12 1009 [2; 3; 5; 7; 11; 0]
  = Ok (true, if 1009 <? 1000 then [2; 3; 5; 7; 11; 0]
              else skipn 5 [2; 3; 5; 7; 11; 0]).
Proof.
  apply is_prime_accepts_primes.
  - apply simple_is_prime_sound. vm_compute; reflexivity.
  - intros _. split; [simpl; lia|]. split; [simpl; lia|].
    repeat constructor; lia.
Defined.

(** Below [1009 ^ 2] the answer of [is_prime] is exact. A number that is
    not prime gets [False] before any draw, for every fuel and tape; a
    prime gets [True], from the table below 1000 and after five rounds
    above; so a returned answer is [True] exactly on the primes. *)
Theorem is_prime_exact_below_1009_squared : forall fuel n t,
    n < 1009 * 1009 ->
    (~ Z.prime n -> is_prime fuel n t = Ok (false, t)) /\
    (Z.prime n ->
     (1000 <= n ->
      Z.log2 n < Z.of_nat fuel /\ (5 <= length t)%nat /\
      Forall (fun a => 2 <= a <= n - 2) (firstn 5 t)) ->
     is_prime fuel n t = Ok (true, if n <? 1000 then t else skipn 5 t)) /\
    (forall b t', is_prime fuel n t = Ok (b, t') -> (b = true <-> Z.prime n)).
Proof.
  intros fuel n t Hn. split; [|split].
  - intros Hnp. now apply is_prime_rejects_small_composite.
  - intros Hp Hbig. now apply is_prime_total_on_prime.
  - intros b t' H. now apply (is_prime_small_spec fuel n t b t').
Qed.

Lemma is_prime_exact_below_1009_squared_witness :
  (~ Z.prime 1018079 -> is_prime 0 1018079 [] = Ok (false, [])) /\
  (Z.prime 1018079 ->
   (1000 <= 1018079 ->
    Z.log2 1018079 < Z.of_nat 0 /\ (5 <= length (@nil Z))%nat /\
    Forall (fun a => 2 <= a <= 1018079 - 2) (firstn 5 [])) ->
   is_prime 0 1018079 []
   = Ok (true, if 1018079 <? 1000 then [] else skipn 5 [])) /\
  (forall b t', is_prime 0 1018079 [] = Ok (b, t') ->
                (b = true <-> Z.prime 1018079)).
Proof.
  apply is_prime_exact_below_1009_squared. lia.
Defined.

(** What [find_random_prime] returns lies in [start, stop) and was
    accepted by [is_prime]; it is a prime whenever [stop <= 1009 ^ 2]. *)
Theorem find_random_prime_result : forall loops fuel start stop t n t',
    find_random_prime loops fuel start stop t = Ok (n, t') ->
    start <= n < stop /\ 2 <= n /\
    (stop <= 1009 * 1009 -> Z.prime n).
Proof.
  intros. eapply find_random_prime_spec; eassumption.
Qed.

Lemma find_random_prime_result_witness :
  8 <= 13 < 16 /\ 2 <= 13 /\ (16 <= 1009 * 1009 -> Z.prime 13).
Proof.
  apply (find_random_prime_result 5 5 8 16 [9; 15; 13; 11] 13 [11]).
  vm_compute; reflexivity.
Defined.

(** Textbook RSA on the codec: for any two distinct primes [p] and [q],
    exponents with [e * d = 1] modulo [(p-1)*(q-1)] and a block size with
    [256 ^ b <= p * q], decrypting the encryption of an ASCII message
    without trailing NUL gives the message back. *)
Theorem encrypt_decrypt_valid_key : forall p q e d m b,
    Z.prime p -> Z.prime q -> p <> q ->
    0 <= e -> 0 <= d -> (e * d) mod ((p - 1) * (q - 1)) = 1 ->
    Forall is_ascii m -> last m 1 <> 0 ->
    1 <= b -> 256 ^ b <= p * q ->
    (c <- encrypt m (p * q, e) b ;; decrypt c (p * q, d) b) = Ok m.
Proof.
  intros. eapply rsa_round_trip; eassumption.
Qed.

Lemma encrypt_decrypt_valid_key_witness :
  (c <- encrypt (map Z.of_nat (seq 97 26)) (2219947 * 2500601, 65537) 5 ;;
   decrypt c (2219947 * 2500601, 109182490673) 5)
  = Ok (map Z.of_nat (seq 97 26)).
Proof.
  apply encrypt_decrypt_valid_key.
  - apply simple_is_prime_sound. vm_compute; reflexivity.
  - apply simple_is_prime_sound. vm_compute; reflexivity.
  - lia.
  - lia.
  - lia.
  - vm_compute; reflexivity.
  - apply Forall_forall. intros x Hx. apply in_map_iff in Hx.
    destruct Hx as (k & <- & Hk). apply in_seq in Hk.
    unfold is_ascii. lia.
  - vm_compute. lia.
  - lia.
  - vm_compute. discriminate.
Defined.
